(** * TinyG motor queue (firmware/tinyg_316.20/motor_queue.c)

    A shallow embedding of the circular move buffer, the DDA frequency
    selection and the three submission entry points, followed by the
    properties of the written specification that were checked against it.

    Conventions.
    - C [double] is IEEE 754 binary64, Rocq's primitive [float]; every
      arithmetic operation below is the correctly rounded machine operation.
    - [uint8_t] and [uint32_t] are [Z] with the wrap-around written out.
    - A pointer into [mq.move_buffer] is the index of the slot, [NULL] is
      [None].
    - The calls that leave the module ([st_request_load], [TRAP1]) are
      returned as a list of events, oldest first.
    - [cli()]/[sei()] only mask the stepper interrupt; the model is
      sequential, so they leave no trace. *)

From Stdlib Require Import ZArith Lia Bool List.
From Stdlib Require Import Uint63 Floats.PrimFloat Floats.FloatOps Floats.SpecFloat
  Floats.FloatAxioms.
From stdpp Require Import base list.
Import ListNotations.

Local Open Scope Z_scope.

(** ** C doubles and their conversions *)

Module Double.

(** [isfinite] of math.h. *)
Definition isfinite (x : float) : bool := PrimFloat.is_finite x.

(** [fabs] of math.h and [square] of avr-libc's math.h. *)
Definition fabs (x : float) : float := PrimFloat.abs x.
Definition square (x : float) : float := (x * x)%float.

(** Conversion of a (small) C integer to double, as the usual arithmetic
    conversions do for [f_dda_base * dda_overclock]. *)
Definition of_int (z : Z) : float :=
  if z <? 0 then (- of_uint63 (Uint63.of_Z (- z)))%float
  else of_uint63 (Uint63.of_Z z).

(** The integral part of a double, fraction discarded (toward zero).
    Not-a-number and the infinities have none. *)
Definition integral_part (x : float) : option Z :=
  match Prim2SF x with
  | S754_zero _ => Some 0
  | S754_finite s m e =>
      let n := if 0 <=? e then Z.shiftl (Zpos m) e
               else Z.shiftr (Zpos m) (- e) in
      Some (if s then - n else n)
  | S754_infinity _ | S754_nan => None
  end.

(** The cast [(uint32_t)x]. C defines it when the integral part is
    representable; otherwise the behaviour is undefined and the target's
    conversion routine decides: [oor] is that decision, reduced to 32
    bits. *)
Definition to_uint32 (oor : float -> Z) (x : float) : Z :=
  match integral_part x with
  | Some n => if (0 <=? n) && (n <? 2 ^ 32) then n else oor x mod 2 ^ 32
  | None => oor x mod 2 ^ 32
  end.

(** The specification's [round]: the nearest integer, halves away from
    zero (C's [round]). This is the reading of the specification, not
    something the firmware calls. *)
Definition spec_round (x : float) : option Z :=
  match Prim2SF x with
  | S754_zero _ => Some 0
  | S754_finite s m e =>
      let n := if 0 <=? e then Z.shiftl (Zpos m) e
               else (2 * Zpos m + 2 ^ (- e)) / (2 * 2 ^ (- e)) in
      Some (if s then - n else n)
  | S754_infinity _ | S754_nan => None
  end.

End Double.

(** ** Configuration

    The constants below come from headers (tinyg.h, stepper.h, util.h,
    config.h) that are not part of the verified file, so the embedding takes
    them as parameters. [MQ_BUFFER_SIZE] is defined in motor_queue.c itself
    (as 3); it is a parameter here so that the buffer properties can be
    stated for every capacity. *)

Record mqParams := {
  MQ_BUFFER_SIZE : Z;
  MOTORS : nat;
  F_DDA : float;
  F_DDA_MIN : float;
  F_DWELL : float;
  DDA_OVERCLOCK : Z;
  DDA_SUBSTEPS : float;
  MAX_ULONG : float;
  EPSILON : float;
  COUNTER_RESET_FACTOR : Z;
  (** [cfg.m[i].polarity] *)
  polarity : nat -> Z;
  (** the macro [_f_to_period] *)
  _f_to_period : float -> Z;
  (** what [(uint32_t)x] yields where C leaves it undefined *)
  fixuns_undefined : float -> Z
}.

(** ** Data model *)

Inductive mqState := MQ_BUFFER_EMPTY | MQ_BUFFER_LOADING | MQ_BUFFER_READY.

(** Modelled from the spec: the move-type codes of motor_queue.h. The file
    names [MQ_LINE] and [MQ_DWELL]; the start, stop and end markers are the
    ones the specification lists. *)
Inductive mqType := MQ_LINE | MQ_DWELL | MQ_START | MQ_STOP | MQ_END.

Inductive tgStatus := TG_OK | TG_ZERO_LENGTH_MOVE | TG_BUFFER_FULL_NON_FATAL.

(** Calls that leave the module. *)
Inductive event :=
| st_request_load
| TRAP1 (major_axis_steps : float).

(** One motor of a move: [mq.p->a[i]]. *)
Record mqAxis := { dir : Z; steps : Z }.

(** [struct mqMove], with the fields motor_queue.c writes. *)
Record mqMove := {
  a : list mqAxis;
  timer_period : Z;
  timer_ticks : Z;
  timer_ticks_X_substeps : Z;
  counter_reset_flag : bool;
  mq_type : mqType;
  mq_state : mqState
}.

(** [struct mqSingleton]. *)
Record mqSingleton := {
  head : Z;
  tail : Z;
  previous_ticks : Z;
  p : option nat;
  move_buffer : list mqMove
}.

Definition set_head (h : Z) (mq : mqSingleton) : mqSingleton :=
  {| head := h; tail := tail mq; previous_ticks := previous_ticks mq;
     p := p mq; move_buffer := move_buffer mq |}.

Definition set_tail (t : Z) (mq : mqSingleton) : mqSingleton :=
  {| head := head mq; tail := t; previous_ticks := previous_ticks mq;
     p := p mq; move_buffer := move_buffer mq |}.

Definition set_previous_ticks (t : Z) (mq : mqSingleton) : mqSingleton :=
  {| head := head mq; tail := tail mq; previous_ticks := t;
     p := p mq; move_buffer := move_buffer mq |}.

Definition set_p (q : option nat) (mq : mqSingleton) : mqSingleton :=
  {| head := head mq; tail := tail mq; previous_ticks := previous_ticks mq;
     p := q; move_buffer := move_buffer mq |}.

Definition set_move_buffer (b : list mqMove) (mq : mqSingleton) : mqSingleton :=
  {| head := head mq; tail := tail mq; previous_ticks := previous_ticks mq;
     p := p mq; move_buffer := b |}.

(** A store through [mq.p]: the slot [mq.p] points to is replaced by its
    image under [f]. Every caller has stored a non-NULL pointer just
    before, so the [None] branches are never taken. *)
Definition store_p (f : mqMove -> mqMove) (mq : mqSingleton) : mqSingleton :=
  match p mq with
  | Some i =>
      match move_buffer mq !! i with
      | Some m => set_move_buffer (<[i := f m]> (move_buffer mq)) mq
      | None => mq
      end
  | None => mq
  end.

Definition set_mq_state (s : mqState) (m : mqMove) : mqMove :=
  {| a := a m; timer_period := timer_period m; timer_ticks := timer_ticks m;
     timer_ticks_X_substeps := timer_ticks_X_substeps m;
     counter_reset_flag := counter_reset_flag m;
     mq_type := mq_type m; mq_state := s |}.

Definition set_mq_type (t : mqType) (m : mqMove) : mqMove :=
  {| a := a m; timer_period := timer_period m; timer_ticks := timer_ticks m;
     timer_ticks_X_substeps := timer_ticks_X_substeps m;
     counter_reset_flag := counter_reset_flag m;
     mq_type := t; mq_state := mq_state m |}.

Definition set_a (l : list mqAxis) (m : mqMove) : mqMove :=
  {| a := l; timer_period := timer_period m; timer_ticks := timer_ticks m;
     timer_ticks_X_substeps := timer_ticks_X_substeps m;
     counter_reset_flag := counter_reset_flag m;
     mq_type := mq_type m; mq_state := mq_state m |}.

Definition set_timer_period (v : Z) (m : mqMove) : mqMove :=
  {| a := a m; timer_period := v; timer_ticks := timer_ticks m;
     timer_ticks_X_substeps := timer_ticks_X_substeps m;
     counter_reset_flag := counter_reset_flag m;
     mq_type := mq_type m; mq_state := mq_state m |}.

Definition set_timer_ticks (v : Z) (m : mqMove) : mqMove :=
  {| a := a m; timer_period := timer_period m; timer_ticks := v;
     timer_ticks_X_substeps := timer_ticks_X_substeps m;
     counter_reset_flag := counter_reset_flag m;
     mq_type := mq_type m; mq_state := mq_state m |}.

Definition set_timer_ticks_X_substeps (v : Z) (m : mqMove) : mqMove :=
  {| a := a m; timer_period := timer_period m; timer_ticks := timer_ticks m;
     timer_ticks_X_substeps := v;
     counter_reset_flag := counter_reset_flag m;
     mq_type := mq_type m; mq_state := mq_state m |}.

Definition set_counter_reset_flag (v : bool) (m : mqMove) : mqMove :=
  {| a := a m; timer_period := timer_period m; timer_ticks := timer_ticks m;
     timer_ticks_X_substeps := timer_ticks_X_substeps m;
     counter_reset_flag := v;
     mq_type := mq_type m; mq_state := mq_state m |}.

(** ** The move buffer *)

Section Buffer.

Variable P : mqParams.

(** [mq_init]: only the two indices are written. *)
Definition mq_init (mq : mqSingleton) : mqSingleton :=
  set_tail ((MQ_BUFFER_SIZE P - 1) mod 256) (set_head 0 mq).

(** [if (++i >= MQ_BUFFER_SIZE) i = 0;] on a [uint8_t]. *)
Definition incr_wrap (i : Z) : Z :=
  let i' := (i + 1) mod 256 in
  if MQ_BUFFER_SIZE P <=? i' then 0 else i'.

(** [mq_test_motor_buffer]: [FALSE] ("buffer full") when head and tail
    coincide. *)
Definition mq_test_motor_buffer (mq : mqSingleton) : bool :=
  if head mq =? tail mq then false else true.

(** [mq_queue_motor_buffer]: [NULL] when head and tail coincide ("buffer
    full"); otherwise the slot at head, marked as loading, with head moved
    on. *)
Definition mq_queue_motor_buffer (mq : mqSingleton)
  : option nat * mqSingleton :=
  if tail mq =? head mq then (None, mq)
  else
    let mq1 := set_p (Some (Z.to_nat (head mq))) mq in
    let mq2 := set_head (incr_wrap (head mq1)) mq1 in
    let mq3 := store_p (set_mq_state MQ_BUFFER_LOADING) mq2 in
    (p mq3, mq3).

(** [mq_dequeue_motor_buffer]: [NULL] when the index after tail is head
    ("buffer empty"); otherwise tail moves on and its slot is returned. *)
Definition mq_dequeue_motor_buffer (mq : mqSingleton)
  : option nat * mqSingleton :=
  let next_tail := incr_wrap (tail mq) in
  if next_tail =? head mq then (None, mq)
  else
    let mq1 := set_tail next_tail mq in
    let mq2 := set_p (Some (Z.to_nat (tail mq1))) mq1 in
    (p mq2, mq2).

(** [mq_flush_motor_buffer]: [mq.tail = mq.head; mq.p = NULL;] *)
Definition mq_flush_motor_buffer (mq : mqSingleton) : mqSingleton :=
  set_p None (set_tail (head mq) mq).

End Buffer.

(** ** The timing quantizer: [_mq_set_f_dda] *)

Section Quantizer.

Variable P : mqParams.

Local Open Scope float_scope.

(** The [for] loop over [dda_overclock], from the ceiling down to 1: each
    round stores [f_dda_base * dda_overclock] in the output [f_dda] and
    leaves the loop when that is below [F_DDA]. The first argument is the
    value the output holds on entry: it survives only when the body never
    runs. When no multiplier passes the test the loop ends on its last
    store, [f_dda_base * 1]. *)
Fixpoint overclock_loop (f_dda f_dda_base : float) (dda_overclock : nat)
  : float :=
  match dda_overclock with
  | O => f_dda
  | S k =>
      let f := f_dda_base * Double.of_int (Z.of_nat dda_overclock) in
      if f <? F_DDA P then f else overclock_loop f f_dda_base k
  end.

(** The first half of [_mq_set_f_dda]: the clock chosen "assuming the
    line will fit". *)
Definition dda_clock (f_dda f_dda_base : float) : float :=
  if (DDA_OVERCLOCK P =? 0)%Z then f_dda_base
  else if f_dda_base * Double.of_int (DDA_OVERCLOCK P) <? F_DDA_MIN P
       then F_DDA_MIN P
  else overclock_loop f_dda f_dda_base
         (Z.to_nat (DDA_OVERCLOCK P mod 256)).

(** The condition of the [while] loop:
    [microseconds * f_dda * dda_substeps > MAX_ULONG * 1000000]. *)
Definition overflows (microseconds f_dda dda_substeps : float) : bool :=
  MAX_ULONG P * 1000000 <? microseconds * f_dda * dda_substeps.

(** The [while] loop of [_mq_set_f_dda]. [fuel] bounds the number of
    iterations; [None] is a loop that has not ended within it. *)
Fixpoint substep_loop (fuel : nat)
    (major_axis_steps f_dda_base microseconds f_dda dda_substeps : float)
  : option (float * float * list event) :=
  if overflows microseconds f_dda dda_substeps then
    match fuel with
    | O => None
    | S fuel' =>
        let dda_substeps := dda_substeps / 2 in
        if dda_substeps <? 1 then
          let dda_substeps := 1 in
          let f_dda := f_dda_base in
          let f_dda := if f_dda <? F_DDA_MIN P then F_DDA_MIN P else f_dda in
          if overflows microseconds f_dda dda_substeps
          then Some (f_dda, dda_substeps, [TRAP1 major_axis_steps])
          else substep_loop fuel' major_axis_steps f_dda_base
                 microseconds f_dda dda_substeps
        else substep_loop fuel' major_axis_steps f_dda_base
               microseconds f_dda dda_substeps
    end
  else Some (f_dda, dda_substeps, []).

(** A finite double falls below 1 after at most 1024 halvings, so this
    many iterations are only exceeded by a loop that never ends (an
    infinite [DDA_SUBSTEPS]). *)
Definition substep_fuel : nat := 1100.

(** [_mq_set_f_dda]: the two in/out arguments come first, the result is
    their final value and the traps raised. *)
Definition _mq_set_f_dda
    (f_dda dda_substeps major_axis_steps microseconds : float)
  : option (float * float * list event) :=
  let f_dda_base := (major_axis_steps / microseconds) * 1000000 in
  let f_dda := dda_clock f_dda f_dda_base in
  substep_loop substep_fuel major_axis_steps f_dda_base
    microseconds f_dda dda_substeps.

(** Does halving [s] reach a value below 1 within [n] steps? *)
Fixpoint halves_below_one (n : nat) (s : float) : bool :=
  match n with
  | O => false
  | S n' => let s' := s / 2 in
            if s' <? 1 then true else halves_below_one n' s'
  end.

(** The configured sub-step multiplier can be halved away. *)
Definition substeps_halve_out : Prop :=
  halves_below_one (pred substep_fuel) (DDA_SUBSTEPS P) = true.

End Quantizer.

(** ** The queue API *)

Section QueueAPI.

Variable P : mqParams.

Local Open Scope float_scope.

(** A read through [mq.p]. *)
Definition load_p {A} (g : mqMove -> A) (d : A) (mq : mqSingleton) : A :=
  match p mq with
  | Some i => match move_buffer mq !! i with Some m => g m | None => d end
  | None => d
  end.

(** [_mq_request_load] *)
Definition _mq_request_load (type : mqType) (mq : mqSingleton)
  : tgStatus * mqSingleton * list event :=
  let mq1 := store_p (set_mq_type type) mq in
  let mq2 := store_p (set_mq_state MQ_BUFFER_READY) mq1 in
  (TG_OK, mq2, [st_request_load]).

(** [steps[i]]; the caller's array has [MOTORS] entries. *)
Definition steps_at (steps : list float) (i : nat) : float :=
  nth i steps 0.

(** The first loop of [mq_queue_line]: the pair
    [(length, major_axis_steps)] after the last motor. *)
Definition scan_steps (steps : list float) : float * float :=
  fold_left
    (fun acc i =>
       let length := fst acc + Double.square (steps_at steps i) in
       let major_axis_steps :=
         if snd acc <? Double.fabs (steps_at steps i)
         then Double.fabs (steps_at steps i) else snd acc in
       (length, major_axis_steps))
    (seq 0 (MOTORS P)) (0, 0).

(** The second loop of [mq_queue_line]: the array [a] once every motor
    has been written. *)
Definition motor_parameters (steps : list float) (dda_substeps : float)
  : list mqAxis :=
  map (fun i =>
         {| dir := Z.lxor (if steps_at steps i <? 0 then 1 else 0)
                          (polarity P i);
            steps := Double.to_uint32 (fixuns_undefined P)
                       (Double.fabs (steps_at steps i * dda_substeps)) |})
      (seq 0 (MOTORS P)).

(** [mq_queue_line]. [None] stands for a call that does not return (the
    loop of [_mq_set_f_dda] not ending). *)
Definition mq_queue_line (steps : list float) (microseconds : float)
    (mq : mqSingleton) : option (tgStatus * mqSingleton * list event) :=
  let f_dda := F_DDA P in
  let dda_substeps := DDA_SUBSTEPS P in
  if negb (Double.isfinite microseconds) || (microseconds <? EPSILON P)
  then Some (TG_ZERO_LENGTH_MOVE, mq, [])
  else
    let '(length, major_axis_steps) := scan_steps steps in
    if (sqrt length <? 1) || (major_axis_steps <? 1)
    then Some (TG_ZERO_LENGTH_MOVE, mq, [])
    else
      match mq_queue_motor_buffer P mq with
      | (None, mq1) => Some (TG_BUFFER_FULL_NON_FATAL, set_p None mq1, [])
      | (Some i, mq1) =>
          let mq1 := set_p (Some i) mq1 in
          match _mq_set_f_dda P f_dda dda_substeps major_axis_steps
                  microseconds with
          | None => None
          | Some (f_dda, dda_substeps, traps) =>
              let mq2 := store_p (set_a (motor_parameters steps dda_substeps))
                           mq1 in
              let mq3 := store_p (set_timer_period (_f_to_period P f_dda))
                           mq2 in
              let mq4 :=
                store_p (set_timer_ticks
                           (Double.to_uint32 (fixuns_undefined P)
                              ((microseconds / 1000000) * f_dda))) mq3 in
              let mq5 :=
                store_p (set_timer_ticks_X_substeps
                           (Double.to_uint32 (fixuns_undefined P)
                              ((microseconds / 1000000) * f_dda
                               * dda_substeps))) mq4 in
              let flag :=
                ((load_p timer_ticks 0%Z mq5 * COUNTER_RESET_FACTOR P)
                   mod 2 ^ 32 <? previous_ticks mq5)%Z in
              let mq6 := store_p (set_counter_reset_flag flag) mq5 in
              let mq7 := set_previous_ticks (load_p timer_ticks 0%Z mq6)
                           mq6 in
              let '(status, mq8, loads) := _mq_request_load MQ_LINE mq7 in
              Some (status, mq8, traps ++ loads)
          end
      end.

(** [mq_queue_dwell] *)
Definition mq_queue_dwell (microseconds : float) (mq : mqSingleton)
  : tgStatus * mqSingleton * list event :=
  match mq_queue_motor_buffer P mq with
  | (None, mq1) => (TG_BUFFER_FULL_NON_FATAL, set_p None mq1, [])
  | (Some i, mq1) =>
      let mq1 := set_p (Some i) mq1 in
      let mq2 := store_p (set_timer_period (_f_to_period P (F_DWELL P)))
                   mq1 in
      let mq3 :=
        store_p (set_timer_ticks
                   (Double.to_uint32 (fixuns_undefined P)
                      ((microseconds / 1000000) * F_DWELL P))) mq2 in
      _mq_request_load MQ_DWELL mq3
  end.

(** [mq_queue_stops] *)
Definition mq_queue_stops (mq_type : mqType) (mq : mqSingleton)
  : tgStatus * mqSingleton * list event :=
  match mq_queue_motor_buffer P mq with
  | (None, mq1) => (TG_BUFFER_FULL_NON_FATAL, set_p None mq1, [])
  | (Some i, mq1) => _mq_request_load mq_type (set_p (Some i) mq1)
  end.

End QueueAPI.

(** ** Reachable buffers *)

(** The indices address the array and the array has its declared size. *)
Definition wf (P : mqParams) (mq : mqSingleton) : Prop :=
  0 <= head mq < MQ_BUFFER_SIZE P /\
  0 <= tail mq < MQ_BUFFER_SIZE P /\
  Z.of_nat (length (move_buffer mq)) = MQ_BUFFER_SIZE P.

(** Capacities the [uint8_t] indices can serve (the file's own remark:
    "limited to 255"), with at least one usable slot. *)
Definition capacity_ok (P : mqParams) : Prop :=
  2 <= MQ_BUFFER_SIZE P <= 255.

(** Every buffer the module's entry points can produce after [mq_init].
    The fields [mq_init] leaves alone are whatever they were before. *)
Inductive reachable (P : mqParams) : mqSingleton -> Prop :=
| reach_init mq0 :
    Z.of_nat (length (move_buffer mq0)) = MQ_BUFFER_SIZE P ->
    reachable P (mq_init P mq0)
| reach_queue mq :
    reachable P mq -> reachable P (snd (mq_queue_motor_buffer P mq))
| reach_dequeue mq :
    reachable P mq -> reachable P (snd (mq_dequeue_motor_buffer P mq))
| reach_flush mq :
    reachable P mq -> reachable P (mq_flush_motor_buffer mq)
| reach_line steps microseconds mq status mq' events :
    reachable P mq ->
    mq_queue_line P steps microseconds mq = Some (status, mq', events) ->
    reachable P mq'
| reach_dwell microseconds mq :
    reachable P mq -> reachable P (snd (fst (mq_queue_dwell P microseconds mq)))
| reach_stops type mq :
    reachable P mq -> reachable P (snd (fst (mq_queue_stops P type mq))).

(** Number of queued moves a consumer can still dequeue. *)
Definition occupancy (P : mqParams) (mq : mqSingleton) : Z :=
  (head mq - tail mq - 1) mod MQ_BUFFER_SIZE P.

(** [n] reservations in a row, all of them granted. *)
Fixpoint reserve_n (P : mqParams) (n : nat) (mq : mqSingleton)
  : option mqSingleton :=
  match n with
  | O => Some mq
  | S n' =>
      match mq_queue_motor_buffer P mq with
      | (Some _, mq') => reserve_n P n' mq'
      | (None, _) => None
      end
  end.

(** ** A concrete configuration

    Three slots as in motor_queue.c, four motors, and clock constants of the
    size this firmware generation is built with (a 50 kHz DDA clock with a
    500 Hz floor, 16-fold overclocking, six decimal digits of sub-steps, an
    epsilon of 0.0001 rounded to binary64). It serves to evaluate the
    functions on concrete inputs. *)

Definition example_params : mqParams := {|
  MQ_BUFFER_SIZE := 3;
  MOTORS := 4;
  F_DDA := 50000;
  F_DDA_MIN := 500;
  F_DWELL := 10000;
  DDA_OVERCLOCK := 16;
  DDA_SUBSTEPS := 1000000;
  MAX_ULONG := 4294967295;
  EPSILON := 0x1.a36e2eb1c432dp-14;
  COUNTER_RESET_FACTOR := 2;
  polarity := fun i => if Nat.eqb i 1 then 1 else 0;
  _f_to_period := fun f =>
    match Double.integral_part (32000000 / f)%float with
    | Some n => n mod 2 ^ 16
    | None => 0
    end;
  fixuns_undefined := fun _ => 0
|}.

(** The same configuration with another overclock ceiling. *)
Definition with_overclock (d : Z) (P : mqParams) : mqParams := {|
  MQ_BUFFER_SIZE := MQ_BUFFER_SIZE P;
  MOTORS := MOTORS P;
  F_DDA := F_DDA P;
  F_DDA_MIN := F_DDA_MIN P;
  F_DWELL := F_DWELL P;
  DDA_OVERCLOCK := d;
  DDA_SUBSTEPS := DDA_SUBSTEPS P;
  MAX_ULONG := MAX_ULONG P;
  EPSILON := EPSILON P;
  COUNTER_RESET_FACTOR := COUNTER_RESET_FACTOR P;
  polarity := polarity P;
  _f_to_period := _f_to_period P;
  fixuns_undefined := fixuns_undefined P
|}.

Definition blank_move : mqMove := {|
  a := [];
  timer_period := 0;
  timer_ticks := 0;
  timer_ticks_X_substeps := 0;
  counter_reset_flag := false;
  mq_type := MQ_LINE;
  mq_state := MQ_BUFFER_EMPTY
|}.

(** A three-slot buffer before [mq_init] has run. *)
Definition blank_mq : mqSingleton := {|
  head := 0;
  tail := 0;
  previous_ticks := 0;
  p := None;
  move_buffer := [blank_move; blank_move; blank_move]
|}.

(** The example buffer after a fast line: a thousand steps in one second,
    16000 ticks. *)
Definition after_fast_line : mqSingleton :=
  match mq_queue_line example_params [1000; 0; 0; 0]%float 1000000
          (mq_init example_params blank_mq) with
  | Some (_, mq', _) => mq'
  | None => blank_mq
  end.

(** ** Vocabulary of the properties *)

(** A degenerate move, in the words of the specification: a duration that
    is not finite or is below epsilon, a vector shorter than one step, or a
    major axis of less than one step. Length and major axis are the ones
    [mq_queue_line] accumulates. *)
Definition degenerate (P : mqParams) (steps : list float)
    (microseconds : float) : bool :=
  negb (Double.isfinite microseconds)
  || (microseconds <? EPSILON P)%float
  || (sqrt (fst (scan_steps P steps)) <? 1)%float
  || (snd (scan_steps P steps) <? 1)%float.

(** The base rate [_mq_set_f_dda] starts from. *)
Definition f_dda_base (major_axis_steps microseconds : float) : float :=
  ((major_axis_steps / microseconds) * 1000000)%float.

(** [s] after [k] halvings. *)
Fixpoint halved (k : nat) (s : float) : float :=
  match k with
  | O => s
  | S k' => halved k' (s / 2)%float
  end.

(** The frequency the overflow guard falls back to when it gives up the
    overclocking: the base rate, raised to [F_DDA_MIN] when below it. *)
Definition fallback_clock (P : mqParams) (f_dda_base : float) : float :=
  if (f_dda_base <? F_DDA_MIN P)%float then F_DDA_MIN P else f_dda_base.

(** The multiples [base * j] and [base * k] are in order for all
    [1 <= j <= k <= d]. *)
Definition multiples_ordered (base : float) (d : nat) : bool :=
  forallb
    (fun k =>
       forallb
         (fun j => (base * Double.of_int (Z.of_nat j)
                    <=? base * Double.of_int (Z.of_nat k))%float)
         (seq 1 k))
    (seq 1 d).

(** The move [mq_queue_line] leaves in the slot it reserved, given the
    quantizer's answer and the tick count of the move queued before. *)
Definition line_move (P : mqParams) (steps : list float)
    (microseconds f_dda dda_substeps : float) (previous : Z) : mqMove :=
  let ticks :=
    Double.to_uint32 (fixuns_undefined P)
      ((microseconds / 1000000) * f_dda)%float in
  {| a := motor_parameters P steps dda_substeps;
     timer_period := _f_to_period P f_dda;
     timer_ticks := ticks;
     timer_ticks_X_substeps :=
       Double.to_uint32 (fixuns_undefined P)
         ((microseconds / 1000000) * f_dda * dda_substeps)%float;
     counter_reset_flag :=
       (ticks * COUNTER_RESET_FACTOR P) mod 2 ^ 32 <? previous;
     mq_type := MQ_LINE;
     mq_state := MQ_BUFFER_READY |}.

(** What the overflow guard may return when entered with clock [f_dda] and
    multiplier [dda_substeps]. Either some number [k] of halvings makes the
    product fit, every earlier multiplier having overflowed and stayed at 1
    or above: then the clock is kept. Or the multiplier would drop below 1
    while the product still overflows: then it is 1, the clock is the
    fallback clock, and a trap is raised exactly when even that
    overflows. *)
Inductive guard_result (P : mqParams)
    (major_axis_steps f_dda_base microseconds f_dda dda_substeps : float)
  : float * float * list event -> Prop :=
| guard_fits k :
    (forall j, (j < k)%nat ->
       overflows P microseconds f_dda (halved j dda_substeps) = true /\
       (halved (S j) dda_substeps <? 1)%float = false) ->
    overflows P microseconds f_dda (halved k dda_substeps) = false ->
    guard_result P major_axis_steps f_dda_base microseconds f_dda dda_substeps
      (f_dda, halved k dda_substeps, [])
| guard_clamped k :
    (forall j, (j < k)%nat ->
       overflows P microseconds f_dda (halved j dda_substeps) = true /\
       (halved (S j) dda_substeps <? 1)%float = false) ->
    overflows P microseconds f_dda (halved k dda_substeps) = true ->
    (halved (S k) dda_substeps <? 1)%float = true ->
    guard_result P major_axis_steps f_dda_base microseconds f_dda dda_substeps
      (fallback_clock P f_dda_base, 1%float,
       if overflows P microseconds (fallback_clock P f_dda_base) 1
       then [TRAP1 major_axis_steps] else []).

(** ** Vocabulary of the queue order *)

(** The slots waiting for the consumer, next one first: the indices after
    tail, as many as there are moves queued. *)
Definition queued (P : mqParams) (mq : mqSingleton) : list nat :=
  map (fun k => Z.to_nat ((tail mq + 1 + Z.of_nat k) mod MQ_BUFFER_SIZE P))
      (seq 0 (Z.to_nat (occupancy P mq))).

(** Up to [n] calls of [mq_dequeue_motor_buffer] in a row, ending at the
    first that returns nothing: the slots handed out, in that order, and
    the buffer left behind. *)
Fixpoint drain (P : mqParams) (n : nat) (mq : mqSingleton)
  : list nat * mqSingleton :=
  match n with
  | O => ([], mq)
  | S n' =>
      match mq_dequeue_motor_buffer P mq with
      | (Some i, mq') => let (l, mq'') := drain P n' mq' in (i :: l, mq'')
      | (None, mq') => ([], mq')
      end
  end.

(** Calls of [mq_queue_line] in a row, one per entry of [lines] (steps and
    duration): the statuses returned, in that order, and the buffer left
    behind. *)
Fixpoint queue_lines (P : mqParams) (lines : list (list float * float))
    (mq : mqSingleton) : option (list tgStatus * mqSingleton) :=
  match lines with
  | [] => Some ([], mq)
  | (steps, microseconds) :: rest =>
      match mq_queue_line P steps microseconds mq with
      | Some (status, mq', _) =>
          match queue_lines P rest mq' with
          | Some (statuses, mq'') => Some (status :: statuses, mq'')
          | None => None
          end
      | None => None
      end
  end.

(** * Properties *)

(** ** Field access after the setters *)

Section StoreFacts.

Variable f : mqMove -> mqMove.
Variable mq : mqSingleton.

Lemma head_store_p : head (store_p f mq) = head mq.
Proof.
  unfold store_p. destruct (p mq) as [i|]; [|reflexivity].
  destruct (move_buffer mq !! i); reflexivity.
Qed.

Lemma tail_store_p : tail (store_p f mq) = tail mq.
Proof.
  unfold store_p. destruct (p mq) as [i|]; [|reflexivity].
  destruct (move_buffer mq !! i); reflexivity.
Qed.

Lemma previous_ticks_store_p :
  previous_ticks (store_p f mq) = previous_ticks mq.
Proof.
  unfold store_p. destruct (p mq) as [i|]; [|reflexivity].
  destruct (move_buffer mq !! i); reflexivity.
Qed.

Lemma p_store_p : p (store_p f mq) = p mq.
Proof.
  unfold store_p. destruct (p mq) as [i|] eqn:Hp; [|auto].
  destruct (move_buffer mq !! i); simpl; auto.
Qed.

Lemma length_store_p :
  length (move_buffer (store_p f mq)) = length (move_buffer mq).
Proof.
  unfold store_p. destruct (p mq) as [i|]; [|reflexivity].
  destruct (move_buffer mq !! i); simpl; [|reflexivity].
  apply length_insert.
Qed.

End StoreFacts.

Create Rewrite HintDb mqfields.

#[local] Hint Rewrite head_store_p tail_store_p previous_ticks_store_p
  p_store_p length_store_p : mqfields.

Ltac mqsimpl := autorewrite with mqfields in *; simpl in *.

(** ** Index arithmetic *)

Lemma incr_wrap_mod P i :
  capacity_ok P -> 0 <= i < MQ_BUFFER_SIZE P ->
  incr_wrap P i = (i + 1) mod MQ_BUFFER_SIZE P.
Proof.
  intros [Hlo Hhi] Hi. unfold incr_wrap.
  rewrite (Z.mod_small (i + 1) 256) by lia.
  destruct (Z.leb_spec (MQ_BUFFER_SIZE P) (i + 1)).
  - replace (i + 1) with (MQ_BUFFER_SIZE P) by lia.
    rewrite Z.mod_same by lia. reflexivity.
  - rewrite Z.mod_small by lia. reflexivity.
Qed.

Lemma incr_wrap_range P i :
  capacity_ok P -> 0 <= i < MQ_BUFFER_SIZE P ->
  0 <= incr_wrap P i < MQ_BUFFER_SIZE P.
Proof.
  intros HC Hi. rewrite incr_wrap_mod by assumption.
  apply Z.mod_pos_bound. destruct HC; lia.
Qed.

(** The successor of an index is another index (two slots at least). *)
Lemma incr_wrap_neq P i :
  capacity_ok P -> 0 <= i < MQ_BUFFER_SIZE P -> incr_wrap P i <> i.
Proof.
  intros [Hlo Hhi] Hi. unfold incr_wrap.
  rewrite (Z.mod_small (i + 1) 256) by lia.
  destruct (Z.leb_spec (MQ_BUFFER_SIZE P) (i + 1)); lia.
Qed.

(** ** The buffer operations, case by case *)

Lemma mq_queue_motor_buffer_full P mq :
  head mq = tail mq -> mq_queue_motor_buffer P mq = (None, mq).
Proof.
  intros H. unfold mq_queue_motor_buffer.
  rewrite H, Z.eqb_refl. reflexivity.
Qed.

Lemma mq_queue_motor_buffer_space P mq :
  head mq <> tail mq ->
  exists mq',
    mq_queue_motor_buffer P mq = (Some (Z.to_nat (head mq)), mq') /\
    head mq' = incr_wrap P (head mq) /\
    tail mq' = tail mq /\
    previous_ticks mq' = previous_ticks mq /\
    p mq' = Some (Z.to_nat (head mq)) /\
    length (move_buffer mq') = length (move_buffer mq).
Proof.
  intros H. unfold mq_queue_motor_buffer.
  destruct (Z.eqb_spec (tail mq) (head mq)) as [E|_]; [congruence|].
  eexists. split.
  - rewrite p_store_p. reflexivity.
  - mqsimpl. repeat split; reflexivity.
Qed.

Lemma mq_queue_motor_buffer_none P mq :
  fst (mq_queue_motor_buffer P mq) = None <-> head mq = tail mq.
Proof.
  split.
  - intros H. destruct (Z.eq_dec (head mq) (tail mq)) as [E|N]; [exact E|].
    destruct (mq_queue_motor_buffer_space P mq N) as (mq' & Hq & _).
    rewrite Hq in H. discriminate.
  - intros H. rewrite mq_queue_motor_buffer_full by assumption. reflexivity.
Qed.

Lemma mq_dequeue_motor_buffer_empty P mq :
  incr_wrap P (tail mq) = head mq ->
  mq_dequeue_motor_buffer P mq = (None, mq).
Proof.
  intros H. unfold mq_dequeue_motor_buffer.
  rewrite H, Z.eqb_refl. reflexivity.
Qed.

Lemma mq_dequeue_motor_buffer_some P mq :
  incr_wrap P (tail mq) <> head mq ->
  mq_dequeue_motor_buffer P mq =
    (Some (Z.to_nat (incr_wrap P (tail mq))),
     set_p (Some (Z.to_nat (incr_wrap P (tail mq))))
       (set_tail (incr_wrap P (tail mq)) mq)).
Proof.
  intros H. unfold mq_dequeue_motor_buffer.
  destruct (Z.eqb_spec (incr_wrap P (tail mq)) (head mq)); [contradiction|].
  reflexivity.
Qed.

Lemma mq_dequeue_motor_buffer_none P mq :
  fst (mq_dequeue_motor_buffer P mq) = None <->
  incr_wrap P (tail mq) = head mq.
Proof.
  split.
  - intros H.
    destruct (Z.eq_dec (incr_wrap P (tail mq)) (head mq)) as [E|N]; [exact E|].
    rewrite mq_dequeue_motor_buffer_some in H by assumption. discriminate.
  - intros H. rewrite mq_dequeue_motor_buffer_empty by assumption.
    reflexivity.
Qed.

(** ** Stores through the current pointer *)

Lemma store_p_mk f h t pt i m (buf : list mqMove) :
  (i < length buf)%nat ->
  store_p f {| head := h; tail := t; previous_ticks := pt; p := Some i;
               move_buffer := <[i := m]> buf |}
  = {| head := h; tail := t; previous_ticks := pt; p := Some i;
       move_buffer := <[i := f m]> buf |}.
Proof.
  intros Hi. unfold store_p; simpl.
  rewrite list_lookup_insert_eq by assumption.
  unfold set_move_buffer; simpl.
  rewrite list_insert_insert_eq. reflexivity.
Qed.

Lemma load_p_mk {A} (g : mqMove -> A) d h t pt i m (buf : list mqMove) :
  (i < length buf)%nat ->
  load_p g d {| head := h; tail := t; previous_ticks := pt; p := Some i;
                move_buffer := <[i := m]> buf |} = g m.
Proof.
  intros Hi. unfold load_p; simpl.
  rewrite list_lookup_insert_eq by assumption. reflexivity.
Qed.

Lemma wf_lookup P mq :
  wf P mq -> exists m, move_buffer mq !! Z.to_nat (head mq) = Some m.
Proof.
  intros (Hh & _ & Hl).
  destruct (lookup_lt_is_Some_2 (move_buffer mq) (Z.to_nat (head mq)))
    as [m Hm]; [lia|].
  exists m; exact Hm.
Qed.

(** A granted reservation, slot by slot. *)
Lemma mq_queue_motor_buffer_slot P mq m :
  head mq <> tail mq ->
  move_buffer mq !! Z.to_nat (head mq) = Some m ->
  mq_queue_motor_buffer P mq =
    (Some (Z.to_nat (head mq)),
     {| head := incr_wrap P (head mq); tail := tail mq;
        previous_ticks := previous_ticks mq;
        p := Some (Z.to_nat (head mq));
        move_buffer :=
          <[Z.to_nat (head mq) := set_mq_state MQ_BUFFER_LOADING m]>
            (move_buffer mq) |}).
Proof.
  intros Hne Hm. unfold mq_queue_motor_buffer.
  destruct (Z.eqb_spec (tail mq) (head mq)) as [E|_]; [congruence|].
  unfold store_p; simpl. rewrite Hm. reflexivity.
Qed.

(** ** Well-formedness is kept *)

Lemma wf_mq_init P mq0 :
  capacity_ok P ->
  Z.of_nat (length (move_buffer mq0)) = MQ_BUFFER_SIZE P ->
  wf P (mq_init P mq0).
Proof.
  intros [Hlo Hhi] Hl. unfold wf, mq_init; simpl.
  rewrite Z.mod_small by lia. repeat split; lia.
Qed.

Lemma wf_mq_queue_motor_buffer P mq :
  capacity_ok P -> wf P mq -> wf P (snd (mq_queue_motor_buffer P mq)).
Proof.
  intros HC Hwf.
  destruct (Z.eq_dec (head mq) (tail mq)) as [E|N].
  - rewrite mq_queue_motor_buffer_full by assumption. exact Hwf.
  - destruct (mq_queue_motor_buffer_space P mq N)
      as (mq' & -> & Hh & Ht & _ & _ & Hl).
    destruct Hwf as (H1 & H2 & H3). unfold wf; simpl.
    rewrite Hh, Ht, Hl.
    split; [apply incr_wrap_range; assumption|]. split; assumption.
Qed.

Lemma wf_mq_dequeue_motor_buffer P mq :
  capacity_ok P -> wf P mq -> wf P (snd (mq_dequeue_motor_buffer P mq)).
Proof.
  intros HC Hwf.
  destruct (Z.eq_dec (incr_wrap P (tail mq)) (head mq)) as [E|N].
  - rewrite mq_dequeue_motor_buffer_empty by assumption. exact Hwf.
  - rewrite mq_dequeue_motor_buffer_some by assumption.
    destruct Hwf as (H1 & H2 & H3). unfold wf; simpl.
    split; [assumption|].
    split; [apply incr_wrap_range; assumption|assumption].
Qed.

Lemma wf_mq_flush_motor_buffer P mq :
  wf P mq -> wf P (mq_flush_motor_buffer mq).
Proof.
  intros (H1 & H2 & H3). unfold wf, mq_flush_motor_buffer; simpl. tauto.
Qed.

Lemma wf_store_p P f mq : wf P mq -> wf P (store_p f mq).
Proof. unfold wf. mqsimpl. tauto. Qed.

Lemma wf_set_p P q mq : wf P mq -> wf P (set_p q mq).
Proof. unfold wf; simpl; tauto. Qed.

Lemma wf_set_previous_ticks P t mq : wf P mq -> wf P (set_previous_ticks t mq).
Proof. unfold wf; simpl; tauto. Qed.

(** ** [mq_queue_line], path by path *)

Lemma degenerate_split P steps microseconds :
  degenerate P steps microseconds =
    (negb (Double.isfinite microseconds) || (microseconds <? EPSILON P)%float)
    || ((sqrt (fst (scan_steps P steps)) <? 1)%float
        || (snd (scan_steps P steps) <? 1)%float).
Proof. unfold degenerate. rewrite <- !orb_assoc. reflexivity. Qed.

Lemma mq_queue_line_degenerate P steps microseconds mq :
  degenerate P steps microseconds = true ->
  mq_queue_line P steps microseconds mq = Some (TG_ZERO_LENGTH_MOVE, mq, []).
Proof.
  rewrite degenerate_split. unfold mq_queue_line.
  destruct (scan_steps P steps) as [len maj]; simpl.
  destruct (negb (Double.isfinite microseconds)
            || (microseconds <? EPSILON P)%float); [reflexivity|].
  simpl. intros ->. reflexivity.
Qed.

Lemma mq_queue_line_full P steps microseconds mq :
  degenerate P steps microseconds = false ->
  head mq = tail mq ->
  mq_queue_line P steps microseconds mq =
    Some (TG_BUFFER_FULL_NON_FATAL, set_p None mq, []).
Proof.
  rewrite degenerate_split. unfold mq_queue_line.
  destruct (scan_steps P steps) as [len maj]; simpl.
  intros Hd Hfull. apply orb_false_elim in Hd as [-> ->].
  rewrite mq_queue_motor_buffer_full by assumption. reflexivity.
Qed.

Lemma mq_queue_line_diverges P steps microseconds mq :
  degenerate P steps microseconds = false ->
  head mq <> tail mq ->
  _mq_set_f_dda P (F_DDA P) (DDA_SUBSTEPS P) (snd (scan_steps P steps))
    microseconds = None ->
  mq_queue_line P steps microseconds mq = None.
Proof.
  rewrite degenerate_split. unfold mq_queue_line.
  destruct (scan_steps P steps) as [len maj]; simpl.
  intros Hd Hne Hq. apply orb_false_elim in Hd as [-> ->].
  destruct (mq_queue_motor_buffer_space P mq Hne) as (mq' & -> & _).
  rewrite Hq. reflexivity.
Qed.

Lemma mq_queue_line_ok P steps microseconds mq m f_dda dda_substeps traps :
  degenerate P steps microseconds = false ->
  wf P mq ->
  head mq <> tail mq ->
  move_buffer mq !! Z.to_nat (head mq) = Some m ->
  _mq_set_f_dda P (F_DDA P) (DDA_SUBSTEPS P) (snd (scan_steps P steps))
    microseconds = Some (f_dda, dda_substeps, traps) ->
  mq_queue_line P steps microseconds mq =
    Some (TG_OK,
          {| head := incr_wrap P (head mq); tail := tail mq;
             previous_ticks :=
               Double.to_uint32 (fixuns_undefined P)
                 ((microseconds / 1000000) * f_dda)%float;
             p := Some (Z.to_nat (head mq));
             move_buffer :=
               <[Z.to_nat (head mq) :=
                   line_move P steps microseconds f_dda dda_substeps
                     (previous_ticks mq)]> (move_buffer mq) |},
          traps ++ [st_request_load]).
Proof.
  rewrite degenerate_split. unfold mq_queue_line.
  destruct (scan_steps P steps) as [len maj]; simpl.
  intros Hd Hwf Hne Hm Hq. apply orb_false_elim in Hd as [-> ->].
  assert (Hi : (Z.to_nat (head mq) < length (move_buffer mq))%nat)
    by (apply lookup_lt_is_Some; eauto).
  rewrite (mq_queue_motor_buffer_slot P mq m Hne Hm), Hq.
  unfold set_p, set_previous_ticks, _mq_request_load; simpl.
  repeat (rewrite ?store_p_mk, ?load_p_mk by exact Hi; simpl).
  reflexivity.
Qed.

(** ** [mq_queue_dwell] and [mq_queue_stops], path by path *)

Lemma mq_queue_dwell_full P microseconds mq :
  head mq = tail mq ->
  mq_queue_dwell P microseconds mq =
    (TG_BUFFER_FULL_NON_FATAL, set_p None mq, []).
Proof.
  intros H. unfold mq_queue_dwell.
  rewrite mq_queue_motor_buffer_full by assumption. reflexivity.
Qed.

Lemma mq_queue_dwell_ok P microseconds mq m :
  head mq <> tail mq ->
  move_buffer mq !! Z.to_nat (head mq) = Some m ->
  mq_queue_dwell P microseconds mq =
    (TG_OK,
     {| head := incr_wrap P (head mq); tail := tail mq;
        previous_ticks := previous_ticks mq;
        p := Some (Z.to_nat (head mq));
        move_buffer :=
          <[Z.to_nat (head mq) :=
              {| a := a m;
                 timer_period := _f_to_period P (F_DWELL P);
                 timer_ticks :=
                   Double.to_uint32 (fixuns_undefined P)
                     ((microseconds / 1000000) * F_DWELL P)%float;
                 timer_ticks_X_substeps := timer_ticks_X_substeps m;
                 counter_reset_flag := counter_reset_flag m;
                 mq_type := MQ_DWELL;
                 mq_state := MQ_BUFFER_READY |}]> (move_buffer mq) |},
     [st_request_load]).
Proof.
  intros Hne Hm. unfold mq_queue_dwell.
  assert (Hi : (Z.to_nat (head mq) < length (move_buffer mq))%nat)
    by (apply lookup_lt_is_Some; eauto).
  rewrite (mq_queue_motor_buffer_slot P mq m Hne Hm).
  unfold set_p, _mq_request_load; simpl.
  repeat (rewrite ?store_p_mk by exact Hi; simpl).
  reflexivity.
Qed.

Lemma wf_mq_queue_line P steps microseconds mq status mq' events :
  capacity_ok P -> wf P mq ->
  mq_queue_line P steps microseconds mq = Some (status, mq', events) ->
  wf P mq'.
Proof.
  intros HC Hwf Hq.
  destruct (degenerate P steps microseconds) eqn:Hd.
  - rewrite mq_queue_line_degenerate in Hq by assumption.
    injection Hq as _ <- _. exact Hwf.
  - destruct (Z.eq_dec (head mq) (tail mq)) as [E|N].
    + rewrite mq_queue_line_full in Hq by assumption.
      injection Hq as _ <- _. apply wf_set_p, Hwf.
    + destruct (wf_lookup P mq Hwf) as [m Hm].
      destruct (_mq_set_f_dda P (F_DDA P) (DDA_SUBSTEPS P)
                  (snd (scan_steps P steps)) microseconds)
        as [[[f s] tr]|] eqn:Hset.
      * rewrite (mq_queue_line_ok _ _ _ _ _ _ _ _ Hd Hwf N Hm Hset) in Hq.
        injection Hq as _ <- _.
        destruct Hwf as (H1 & H2 & H3). unfold wf; simpl.
        rewrite length_insert.
        split; [apply incr_wrap_range; assumption|]. split; assumption.
      * rewrite mq_queue_line_diverges in Hq by assumption. discriminate.
Qed.

Lemma wf_mq_queue_dwell P microseconds mq :
  capacity_ok P -> wf P mq ->
  wf P (snd (fst (mq_queue_dwell P microseconds mq))).
Proof.
  intros HC Hwf.
  destruct (Z.eq_dec (head mq) (tail mq)) as [E|N].
  - rewrite mq_queue_dwell_full by assumption. apply wf_set_p, Hwf.
  - destruct (wf_lookup P mq Hwf) as [m Hm].
    rewrite (mq_queue_dwell_ok P microseconds mq m N Hm).
    destruct Hwf as (H1 & H2 & H3). unfold wf; simpl.
    rewrite length_insert.
    split; [apply incr_wrap_range; assumption|]. split; assumption.
Qed.

Lemma wf_mq_queue_stops P type mq :
  capacity_ok P -> wf P mq ->
  wf P (snd (fst (mq_queue_stops P type mq))).
Proof.
  intros HC Hwf. unfold mq_queue_stops.
  pose proof (wf_mq_queue_motor_buffer P mq HC Hwf) as Hq.
  destruct (mq_queue_motor_buffer P mq) as [[i|] mq1]; simpl in *.
  - unfold _mq_request_load; simpl.
    apply wf_store_p, wf_store_p, wf_set_p, Hq.
  - apply wf_set_p, Hq.
Qed.

Lemma reachable_wf P mq : capacity_ok P -> reachable P mq -> wf P mq.
Proof.
  intros HC Hr. induction Hr.
  - apply wf_mq_init; assumption.
  - apply wf_mq_queue_motor_buffer; assumption.
  - apply wf_mq_dequeue_motor_buffer; assumption.
  - apply wf_mq_flush_motor_buffer; assumption.
  - eapply wf_mq_queue_line; eassumption.
  - apply wf_mq_queue_dwell; assumption.
  - apply wf_mq_queue_stops; assumption.
Qed.

(** ** Occupancy *)

Lemma incr_wrap_cases P i :
  capacity_ok P -> 0 <= i < MQ_BUFFER_SIZE P ->
  incr_wrap P i = if i + 1 <? MQ_BUFFER_SIZE P then i + 1 else 0.
Proof.
  intros [Hlo Hhi] Hi. unfold incr_wrap.
  rewrite (Z.mod_small (i + 1) 256) by lia.
  destruct (Z.leb_spec (MQ_BUFFER_SIZE P) (i + 1)),
           (Z.ltb_spec (i + 1) (MQ_BUFFER_SIZE P)); lia.
Qed.

Lemma occupancy_cases P mq :
  capacity_ok P -> wf P mq ->
  occupancy P mq =
    if tail mq <? head mq then head mq - tail mq - 1
    else head mq - tail mq - 1 + MQ_BUFFER_SIZE P.
Proof.
  intros [Hlo Hhi] (Hh & Ht & _). unfold occupancy.
  destruct (Z.ltb_spec (tail mq) (head mq)).
  - apply Z.mod_small; lia.
  - symmetry. apply (Z.mod_unique _ _ (-1)); lia.
Qed.

Lemma occupancy_range P mq :
  capacity_ok P -> wf P mq -> 0 <= occupancy P mq <= MQ_BUFFER_SIZE P - 1.
Proof.
  intros HC Hwf. rewrite occupancy_cases by assumption.
  destruct HC, Hwf as (Hh & Ht & _).
  destruct (Z.ltb_spec (tail mq) (head mq)); lia.
Qed.

Lemma occupancy_full P mq :
  capacity_ok P -> wf P mq ->
  (occupancy P mq = MQ_BUFFER_SIZE P - 1 <-> head mq = tail mq).
Proof.
  intros HC Hwf. rewrite occupancy_cases by assumption.
  destruct HC, Hwf as (Hh & Ht & _).
  destruct (Z.ltb_spec (tail mq) (head mq)); lia.
Qed.

Lemma occupancy_empty P mq :
  capacity_ok P -> wf P mq ->
  (occupancy P mq = 0 <-> incr_wrap P (tail mq) = head mq).
Proof.
  intros HC Hwf. rewrite occupancy_cases by assumption.
  pose proof Hwf as (Hh & Ht & _).
  rewrite incr_wrap_cases by assumption. destruct HC.
  destruct (Z.ltb_spec (tail mq) (head mq)),
           (Z.ltb_spec (tail mq + 1) (MQ_BUFFER_SIZE P)); lia.
Qed.

Lemma occupancy_reserve P mq :
  capacity_ok P -> wf P mq -> head mq <> tail mq ->
  occupancy P (snd (mq_queue_motor_buffer P mq)) = occupancy P mq + 1.
Proof.
  intros HC Hwf Hne.
  pose proof (wf_mq_queue_motor_buffer P mq HC Hwf) as Hwf'.
  destruct (mq_queue_motor_buffer_space P mq Hne)
    as (mq' & Hq & Hh & Ht & _).
  rewrite Hq in *; simpl in *.
  rewrite !occupancy_cases by assumption. rewrite Hh, Ht.
  pose proof Hwf as (H1 & H2 & _).
  rewrite incr_wrap_cases by assumption. destruct HC.
  destruct (Z.ltb_spec (head mq + 1) (MQ_BUFFER_SIZE P)),
           (Z.ltb_spec (tail mq) (head mq));
    [ destruct (Z.ltb_spec (tail mq) (head mq + 1))
    | destruct (Z.ltb_spec (tail mq) (head mq + 1))
    | destruct (Z.ltb_spec (tail mq) 0)
    | destruct (Z.ltb_spec (tail mq) 0) ]; lia.
Qed.

Lemma occupancy_dequeue P mq :
  capacity_ok P -> wf P mq -> incr_wrap P (tail mq) <> head mq ->
  occupancy P (snd (mq_dequeue_motor_buffer P mq)) = occupancy P mq - 1.
Proof.
  intros HC Hwf Hne.
  pose proof (wf_mq_dequeue_motor_buffer P mq HC Hwf) as Hwf'.
  rewrite mq_dequeue_motor_buffer_some in * by assumption. simpl in Hwf'.
  rewrite !occupancy_cases by assumption. simpl.
  pose proof Hwf as (H1 & H2 & _).
  rewrite incr_wrap_cases in * by assumption. destruct HC.
  destruct (Z.ltb_spec (tail mq + 1) (MQ_BUFFER_SIZE P)),
           (Z.ltb_spec (tail mq) (head mq));
    [ destruct (Z.ltb_spec (tail mq + 1) (head mq))
    | destruct (Z.ltb_spec (tail mq + 1) (head mq))
    | destruct (Z.ltb_spec 0 (head mq))
    | destruct (Z.ltb_spec 0 (head mq)) ]; lia.
Qed.

(** From a buffer whose tail is at the last index, the slots up to it can
    all be reserved, and then head has caught up with tail. *)
Lemma reserve_n_fill P n : forall mq,
  capacity_ok P -> wf P mq ->
  tail mq = MQ_BUFFER_SIZE P - 1 ->
  head mq + Z.of_nat n = MQ_BUFFER_SIZE P - 1 ->
  exists mq', reserve_n P n mq = Some mq' /\ wf P mq' /\
              head mq' = MQ_BUFFER_SIZE P - 1 /\
              tail mq' = MQ_BUFFER_SIZE P - 1.
Proof.
  induction n as [|n IH]; intros mq HC Hwf Ht Hh.
  - exists mq. simpl.
    split; [reflexivity|]. split; [assumption|]. split; [lia|assumption].
  - assert (Hne : head mq <> tail mq) by lia.
    pose proof (wf_mq_queue_motor_buffer P mq HC Hwf) as Hwf'.
    destruct (mq_queue_motor_buffer_space P mq Hne)
      as (mq1 & Hq & Hh1 & Ht1 & _).
    simpl. rewrite Hq in *. simpl in Hwf'.
    apply IH; try assumption; [congruence|].
    rewrite Hh1. pose proof Hwf as (H1 & _).
    rewrite incr_wrap_cases by assumption.
    destruct (Z.ltb_spec (head mq + 1) (MQ_BUFFER_SIZE P)); lia.
Qed.

(** ** The move buffer: flush, capacity, full and empty *)

(** C1. After [mq_flush_motor_buffer] the buffer is not empty but full: in
    every reachable buffer of two or more slots the next
    [mq_dequeue_motor_buffer] hands out the slot after head, no slot can be
    reserved, and all but one slot count as queued. (A second flush changes
    nothing more.) The file describes flush as removing all buffered moves;
    [tail = head] is the full state of the tests in
    [mq_queue_motor_buffer] and [mq_dequeue_motor_buffer]. *)
Theorem mq_flush_motor_buffer_leaves_full P mq :
  capacity_ok P -> reachable P mq ->
  fst (mq_dequeue_motor_buffer P (mq_flush_motor_buffer mq))
    = Some (Z.to_nat (incr_wrap P (head mq))) /\
  fst (mq_queue_motor_buffer P (mq_flush_motor_buffer mq)) = None /\
  mq_test_motor_buffer (mq_flush_motor_buffer mq) = false /\
  occupancy P (mq_flush_motor_buffer mq) = MQ_BUFFER_SIZE P - 1 /\
  mq_flush_motor_buffer (mq_flush_motor_buffer mq) = mq_flush_motor_buffer mq.
Proof.
  intros HC Hr. pose proof (reachable_wf P mq HC Hr) as Hwf.
  pose proof (wf_mq_flush_motor_buffer P mq Hwf) as Hwf'.
  pose proof Hwf as (Hh & _).
  split; [|split; [|split; [|split]]].
  - rewrite mq_dequeue_motor_buffer_some; [reflexivity|].
    simpl. apply incr_wrap_neq; assumption.
  - apply mq_queue_motor_buffer_none. reflexivity.
  - unfold mq_test_motor_buffer; simpl. rewrite Z.eqb_refl. reflexivity.
  - apply occupancy_full; [assumption..|reflexivity].
  - reflexivity.
Qed.

Lemma mq_flush_motor_buffer_leaves_full_witness :
  capacity_ok example_params /\
  reachable example_params (mq_init example_params blank_mq) /\
  fst (mq_dequeue_motor_buffer example_params
         (mq_flush_motor_buffer (mq_init example_params blank_mq)))
    = Some 1%nat.
Proof.
  assert (HC : capacity_ok example_params)
    by (unfold capacity_ok; simpl; lia).
  assert (Hr : reachable example_params (mq_init example_params blank_mq))
    by (apply reach_init; reflexivity).
  split; [exact HC|]. split; [exact Hr|].
  exact (proj1 (mq_flush_motor_buffer_leaves_full example_params _ HC Hr)).
Defined.

(** C2. A buffer of capacity C just initialised by [mq_init] reports empty
    ([mq_test_motor_buffer] is true, [mq_dequeue_motor_buffer] returns
    nothing); C-1 reservations in a row are granted and the next one is
    refused; after one dequeue from that full buffer one more reservation
    is granted and the one after it is refused. *)
Theorem mq_init_capacity P mq0 :
  capacity_ok P ->
  Z.of_nat (length (move_buffer mq0)) = MQ_BUFFER_SIZE P ->
  mq_test_motor_buffer (mq_init P mq0) = true /\
  fst (mq_dequeue_motor_buffer P (mq_init P mq0)) = None /\
  exists full,
    reserve_n P (Z.to_nat (MQ_BUFFER_SIZE P - 1)) (mq_init P mq0) = Some full /\
    fst (mq_queue_motor_buffer P full) = None /\
    exists i mq1,
      mq_dequeue_motor_buffer P full = (Some i, mq1) /\
      exists j mq2,
        mq_queue_motor_buffer P mq1 = (Some j, mq2) /\
        fst (mq_queue_motor_buffer P mq2) = None.
Proof.
  intros HC Hl. pose proof HC as [Hlo Hhi].
  pose proof (wf_mq_init P mq0 HC Hl) as Hwf.
  assert (Hh0 : head (mq_init P mq0) = 0) by reflexivity.
  assert (Ht0 : tail (mq_init P mq0) = MQ_BUFFER_SIZE P - 1)
    by (simpl; apply Z.mod_small; lia).
  split; [|split].
  - unfold mq_test_motor_buffer. rewrite Hh0, Ht0.
    destruct (Z.eqb_spec 0 (MQ_BUFFER_SIZE P - 1)); [lia|reflexivity].
  - apply mq_dequeue_motor_buffer_none. rewrite Hh0, Ht0.
    rewrite incr_wrap_cases by first [assumption|lia].
    destruct (Z.ltb_spec (MQ_BUFFER_SIZE P - 1 + 1) (MQ_BUFFER_SIZE P)); lia.
  - destruct (reserve_n_fill P (Z.to_nat (MQ_BUFFER_SIZE P - 1))
                (mq_init P mq0) HC Hwf Ht0)
      as (full & Hres & Hwff & Hhf & Htf); [rewrite Hh0; lia|].
    exists full. split; [exact Hres|].
    split; [apply mq_queue_motor_buffer_none; congruence|].
    assert (Hinc : incr_wrap P (MQ_BUFFER_SIZE P - 1) = 0).
    { rewrite incr_wrap_cases by first [assumption|lia].
      destruct (Z.ltb_spec (MQ_BUFFER_SIZE P - 1 + 1) (MQ_BUFFER_SIZE P)); lia. }
    assert (Hne : incr_wrap P (tail full) <> head full)
      by (rewrite Htf, Hhf, Hinc; lia).
    eexists _, _. split; [apply mq_dequeue_motor_buffer_some; exact Hne|].
    set (mq1 := set_p _ _).
    assert (Hne1 : head mq1 <> tail mq1)
      by (subst mq1; simpl; rewrite Htf, Hhf, Hinc; lia).
    destruct (mq_queue_motor_buffer_space P mq1 Hne1)
      as (mq2 & Hq2 & Hh2 & Ht2 & _).
    eexists _, _. split; [exact Hq2|].
    apply mq_queue_motor_buffer_none. rewrite Hh2, Ht2.
    subst mq1; simpl. rewrite Htf, Hhf, Hinc. reflexivity.
Qed.

Lemma mq_init_capacity_witness :
  capacity_ok example_params /\
  Z.of_nat (length (move_buffer blank_mq)) = MQ_BUFFER_SIZE example_params /\
  exists full,
    reserve_n example_params 2 (mq_init example_params blank_mq) = Some full /\
    fst (mq_queue_motor_buffer example_params full) = None.
Proof.
  assert (HC : capacity_ok example_params)
    by (unfold capacity_ok; simpl; lia).
  assert (Hl : Z.of_nat (length (move_buffer blank_mq))
               = MQ_BUFFER_SIZE example_params) by reflexivity.
  split; [exact HC|]. split; [exact Hl|].
  destruct (mq_init_capacity example_params blank_mq HC Hl)
    as (_ & _ & full & Hres & Hfull & _).
  exists full. split; [exact Hres|exact Hfull].
Defined.

(** C3, as amended. In every reachable buffer, [head == tail] holds exactly
    when the buffer is full (a reservation returns nothing) and
    [tail+1 == head] (mod C) holds exactly when it is empty (a dequeue
    returns nothing); between zero and C-1 moves are queued, a granted
    reservation adds one and a granted dequeue takes one away. *)
Theorem full_and_empty_tests P mq :
  capacity_ok P -> reachable P mq ->
  (head mq = tail mq <-> fst (mq_queue_motor_buffer P mq) = None) /\
  ((tail mq + 1) mod MQ_BUFFER_SIZE P = head mq
     <-> fst (mq_dequeue_motor_buffer P mq) = None) /\
  0 <= occupancy P mq <= MQ_BUFFER_SIZE P - 1 /\
  (fst (mq_queue_motor_buffer P mq) = None
     <-> occupancy P mq = MQ_BUFFER_SIZE P - 1) /\
  (fst (mq_dequeue_motor_buffer P mq) = None <-> occupancy P mq = 0) /\
  (fst (mq_queue_motor_buffer P mq) <> None ->
     occupancy P (snd (mq_queue_motor_buffer P mq)) = occupancy P mq + 1) /\
  (fst (mq_dequeue_motor_buffer P mq) <> None ->
     occupancy P (snd (mq_dequeue_motor_buffer P mq)) = occupancy P mq - 1).
Proof.
  intros HC Hr. pose proof (reachable_wf P mq HC Hr) as Hwf.
  pose proof Hwf as (Hh & Ht & _).
  rewrite mq_queue_motor_buffer_none, mq_dequeue_motor_buffer_none.
  rewrite <- (incr_wrap_mod P (tail mq)) by assumption.
  rewrite occupancy_full, occupancy_empty by assumption.
  repeat split; try tauto.
  - apply occupancy_range; assumption.
  - apply occupancy_range; assumption.
  - intros Hne. apply occupancy_reserve; assumption.
  - intros Hne. apply occupancy_dequeue; assumption.
Qed.

Lemma full_and_empty_tests_witness :
  capacity_ok example_params /\
  reachable example_params (mq_init example_params blank_mq) /\
  occupancy example_params
    (snd (mq_queue_motor_buffer example_params
            (mq_init example_params blank_mq))) = 1.
Proof.
  assert (HC : capacity_ok example_params)
    by (unfold capacity_ok; simpl; lia).
  assert (Hr : reachable example_params (mq_init example_params blank_mq))
    by (apply reach_init; reflexivity).
  split; [exact HC|]. split; [exact Hr|].
  destruct (full_and_empty_tests example_params _ HC Hr)
    as (_ & _ & _ & _ & _ & Hres & _).
  apply Hres. discriminate.
Defined.

(** C3 as first stated fails on the three-slot buffer: right after
    [mq_init] a dequeue returns nothing although head (0) and tail (2)
    differ. *)
Lemma head_eq_tail_is_not_empty :
  ~ (forall mq, reachable example_params mq ->
       (head mq = tail mq
          <-> fst (mq_dequeue_motor_buffer example_params mq) = None) /\
       ((head mq + 1) mod MQ_BUFFER_SIZE example_params = tail mq
          <-> fst (mq_queue_motor_buffer example_params mq) = None)).
Proof.
  intros H.
  destruct (H (mq_init example_params blank_mq)) as [[_ Hempty] _].
  - apply reach_init. reflexivity.
  - specialize (Hempty eq_refl). discriminate Hempty.
Qed.

(** ** The overflow guard *)

Section Guard.

Variable P : mqParams.
Variables major_axis_steps base microseconds : float.

Lemma guard_result_halve f s r :
  overflows P microseconds f s = true ->
  ((s / 2) <? 1)%float = false ->
  guard_result P major_axis_steps base microseconds f (s / 2)%float r ->
  guard_result P major_axis_steps base microseconds f s r.
Proof.
  intros Hov Hge Hr.
  assert (Hpre : forall k,
    (forall j, (j < k)%nat ->
       overflows P microseconds f (halved j (s / 2)%float) = true /\
       (halved (S j) (s / 2)%float <? 1)%float = false) ->
    forall j, (j < S k)%nat ->
       overflows P microseconds f (halved j s) = true /\
       (halved (S j) s <? 1)%float = false).
  { intros k Hk [|j] Hj; simpl.
    - split; assumption.
    - apply (Hk j). lia. }
  inversion Hr as [k Hk Hfit|k Hk Hlast Hlow]; subst.
  - apply (guard_fits _ _ _ _ _ _ (S k)); [apply Hpre, Hk|exact Hfit].
  - apply (guard_clamped _ _ _ _ _ _ (S k));
      [apply Hpre, Hk|exact Hlast|exact Hlow].
Qed.

(** With fuel for one more round than the multiplier has halvings, the
    loop ends, and it ends as [guard_result] describes. *)
Lemma substep_loop_spec n : forall f s,
  halves_below_one n s = true ->
  exists r,
    substep_loop P (S n) major_axis_steps base microseconds f s = Some r /\
    guard_result P major_axis_steps base microseconds f s r.
Proof.
  induction n as [|n IH]; intros f s Hn; [discriminate|].
  cbn [substep_loop].
  destruct (overflows P microseconds f s) eqn:Hov.
  - simpl in Hn.
    destruct ((s / 2) <? 1)%float eqn:Hlow.
    + fold (fallback_clock P base).
      destruct (overflows P microseconds (fallback_clock P base) 1)
        eqn:Hfb.
      * eexists. split; [reflexivity|].
        pose proof (guard_clamped P major_axis_steps base microseconds
                      f s 0) as G.
        simpl in G. rewrite Hfb in G. apply G; [intros; lia|assumption..].
      * exists (fallback_clock P base, 1%float, []). split.
        -- destruct n; simpl; rewrite ?Hfb; reflexivity.
        -- pose proof (guard_clamped P major_axis_steps base microseconds
                         f s 0) as G.
           simpl in G. rewrite Hfb in G.
           apply G; [intros; lia|assumption..].
    + destruct (IH f (s / 2)%float Hn) as (r & Hr & Gr).
      exists r. split; [exact Hr|].
      apply guard_result_halve; assumption.
  - exists (f, s, []). split; [reflexivity|].
    apply (guard_fits _ _ _ _ _ _ 0); [intros; lia|exact Hov].
Qed.


(** The clock that comes out is the one that went in or the fallback. *)
Lemma guard_result_clock f s f' s' traps :
  guard_result P major_axis_steps base microseconds f s (f', s', traps) ->
  f' = f \/ f' = fallback_clock P base.
Proof. intros Hr. inversion Hr; subst; auto. Qed.

End Guard.

Lemma _mq_set_f_dda_spec P f_dda dda_substeps major_axis_steps microseconds :
  halves_below_one (pred substep_fuel) dda_substeps = true ->
  exists r,
    _mq_set_f_dda P f_dda dda_substeps major_axis_steps microseconds = Some r /\
    guard_result P major_axis_steps
      (f_dda_base major_axis_steps microseconds) microseconds
      (dda_clock P f_dda (f_dda_base major_axis_steps microseconds))
      dda_substeps r.
Proof.
  intros H. unfold _mq_set_f_dda.
  change substep_fuel with (S (pred substep_fuel)).
  apply substep_loop_spec. exact H.
Qed.




(** The three ways out of the guard, on the example configuration: a
    billion steps in a million seconds lose the overclocking (16 kHz down
    to the base rate of 1 kHz, multiplier 1); a thousand steps in a second
    keep their 16 kHz and lose two halvings; ten billion steps in a
    million seconds do not fit at all and trap. *)
Example overflow_guard_drops_overclock :
  _mq_set_f_dda example_params 50000 1000000 1000000000 1000000000000
    = Some (1000, 1, [])%float.
Proof. vm_compute. reflexivity. Qed.

Example overflow_guard_halves :
  _mq_set_f_dda example_params 50000 1000000 1000 1000000
    = Some (16000, 250000, [])%float.
Proof. vm_compute. reflexivity. Qed.

Example overflow_guard_traps :
  _mq_set_f_dda example_params 50000 1000000 10000000000 1000000000000
    = Some (10000, 1, [TRAP1 10000000000])%float.
Proof. vm_compute. reflexivity. Qed.

(** The file's comment gives its test as equivalent to
    [(microseconds/1000000) * f_dda * dda_substeps > MAX_ULONG]. In
    binary64 the two forms can part in the last place at the very
    boundary: for the double next to 8589934.59 microseconds at 500 Hz the
    quotient form is above [MAX_ULONG] by less than a millionth of a tick
    while the test the code makes is not met; the scaled tick count stored
    for it is still a 32-bit value, the largest one. *)
Example overflow_test_boundary :
  overflows example_params 0x1.0624dd2e147aep+23 500 1000000 = false /\
  (MAX_ULONG example_params
     <? (0x1.0624dd2e147aep+23 / 1000000) * 500 * 1000000)%float = true /\
  Double.to_uint32 (fixuns_undefined example_params)
    ((0x1.0624dd2e147aep+23 / 1000000) * 500 * 1000000)%float = 4294967295.
Proof. repeat split; vm_compute; reflexivity. Qed.

(** ** The clock selection *)

(** C6, as amended. With overclocking enabled, the clock is clamped to
    [F_DDA_MIN] when the base rate times the overclock ceiling
    [DDA_OVERCLOCK] (not the base rate itself, multiplier 1) is below
    [F_DDA_MIN]; with the base rate below [F_DDA_MIN] as well, the
    frequency [_mq_set_f_dda] returns is [F_DDA_MIN] whatever the overflow
    guard does. *)
Theorem too_slow_clamps_to_F_DDA_MIN
    P f_dda dda_substeps major_axis_steps microseconds :
  DDA_OVERCLOCK P <> 0 ->
  (f_dda_base major_axis_steps microseconds
     * Double.of_int (DDA_OVERCLOCK P) <? F_DDA_MIN P)%float = true ->
  (f_dda_base major_axis_steps microseconds <? F_DDA_MIN P)%float = true ->
  halves_below_one (pred substep_fuel) dda_substeps = true ->
  dda_clock P f_dda (f_dda_base major_axis_steps microseconds)
    = F_DDA_MIN P /\
  exists s traps,
    _mq_set_f_dda P f_dda dda_substeps major_axis_steps microseconds
      = Some (F_DDA_MIN P, s, traps).
Proof.
  intros Hon Hslow Hbase Hhalve.
  assert (Hclock : dda_clock P f_dda
                     (f_dda_base major_axis_steps microseconds) = F_DDA_MIN P).
  { unfold dda_clock.
    destruct (Z.eqb_spec (DDA_OVERCLOCK P) 0); [contradiction|].
    rewrite Hslow. reflexivity. }
  split; [exact Hclock|].
  destruct (_mq_set_f_dda_spec P f_dda dda_substeps major_axis_steps
              microseconds Hhalve) as ([[f s] traps] & Hq & Hr).
  exists s, traps. rewrite Hq. repeat f_equal.
  destruct (guard_result_clock _ _ _ _ _ _ _ _ _ Hr) as [->| ->].
  - exact Hclock.
  - unfold fallback_clock. rewrite Hbase. reflexivity.
Qed.

Lemma too_slow_clamps_to_F_DDA_MIN_witness :
  DDA_OVERCLOCK example_params <> 0 /\
  (f_dda_base 20 1000000 * Double.of_int (DDA_OVERCLOCK example_params)
     <? F_DDA_MIN example_params)%float = true /\
  (f_dda_base 20 1000000 <? F_DDA_MIN example_params)%float = true /\
  halves_below_one (pred substep_fuel) 1000000 = true /\
  exists s traps,
    _mq_set_f_dda example_params 50000 1000000 20 1000000
      = Some (500%float, s, traps).
Proof.
  assert (H1 : DDA_OVERCLOCK example_params <> 0) by (simpl; lia).
  assert (H2 : (f_dda_base 20 1000000
                  * Double.of_int (DDA_OVERCLOCK example_params)
                  <? F_DDA_MIN example_params)%float = true)
    by (vm_compute; reflexivity).
  assert (H3 : (f_dda_base 20 1000000 <? F_DDA_MIN example_params)%float
               = true) by (vm_compute; reflexivity).
  assert (H4 : halves_below_one (pred substep_fuel) 1000000 = true)
    by (vm_compute; reflexivity).
  repeat (split; [assumption|]).
  exact (proj2 (too_slow_clamps_to_F_DDA_MIN example_params 50000 1000000
                  20 1000000 H1 H2 H3 H4)).
Defined.

(** C6 as first stated fails: a hundred steps in one second is a base rate
    of 100 Hz, below the 500 Hz floor, with overclocking enabled; the clock
    chosen is 16 times the base rate, 1600 Hz, not the floor. *)
Lemma slow_base_rate_is_overclocked :
  DDA_OVERCLOCK example_params <> 0 /\
  (f_dda_base 100 1000000 <? F_DDA_MIN example_params)%float = true /\
  _mq_set_f_dda example_params 50000 1000000 100 1000000
    = Some (1600, 1000000, [])%float /\
  (1600 =? F_DDA_MIN example_params)%float = false.
Proof.
  split; [simpl; lia|].
  repeat split; vm_compute; reflexivity.
Qed.

(** *** The order of doubles

    Two facts about the comparisons of binary64, read off their
    specification ([SFcompare] orders by sign, then exponent, then
    mantissa). *)

Ltac sf_order :=
  repeat match goal with
         | s : bool |- _ => destruct s
         end;
  simpl; try discriminate; try reflexivity;
  repeat match goal with
         | |- context [Z.compare ?x ?y] => destruct (Z.compare_spec x y)
         | |- context [Pos.compare_cont Eq ?x ?y] =>
             change (Pos.compare_cont Eq x y) with (Pos.compare x y);
             destruct (Pos.compare_spec x y)
         end;
  simpl; try discriminate; try reflexivity; intros; try lia.

Lemma SFltb_SFleb x y : SFltb x y = true -> SFleb x y = true.
Proof.
  unfold SFltb, SFleb. destruct (SFcompare x y) as [[| |]|]; auto.
Qed.

Lemma SFleb_SFltb_trans x y z :
  SFleb x y = true -> SFltb y z = true -> SFltb x z = true.
Proof.
  unfold SFleb, SFltb.
  destruct x as [sx|sx| |sx mx ex], y as [sy|sy| |sy my ey],
           z as [sz|sz| |sz mz ez]; sf_order.
Qed.

Lemma ltb_leb (x y : float) : (x <? y)%float = true -> (x <=? y)%float = true.
Proof. rewrite ltb_spec, leb_spec. apply SFltb_SFleb. Qed.

Lemma leb_ltb_trans (x y z : float) :
  (x <=? y)%float = true -> (y <? z)%float = true -> (x <? z)%float = true.
Proof. rewrite leb_spec, !ltb_spec. apply SFleb_SFltb_trans. Qed.

(** *** The descending search *)

Section Search.

Variable P : mqParams.
Variable base : float.

(** Once the body runs, the value on entry is overwritten. *)
Lemma overclock_loop_entry f f' k :
  k <> 0%nat -> overclock_loop P f base k = overclock_loop P f' base k.
Proof. destruct k; [congruence|reflexivity]. Qed.

(** The loop ends on one of the multiples it tried. *)
Lemma overclock_loop_pick k : forall f,
  k <> 0%nat ->
  exists j, (1 <= j <= k)%nat /\
    overclock_loop P f base k = (base * Double.of_int (Z.of_nat j))%float.
Proof.
  induction k as [|k IH]; intros f Hk; [congruence|].
  cbn [overclock_loop].
  destruct (base * Double.of_int (Z.of_nat (S k)) <? F_DDA P)%float.
  - exists (S k). split; [lia|reflexivity].
  - destruct k as [|k].
    + exists 1%nat. split; [lia|reflexivity].
    + destruct (IH (base * Double.of_int (Z.of_nat (S (S k))))%float)
        as (j & Hj & ->); [congruence|].
      exists j. split; [lia|reflexivity].
Qed.

(** When multiplier 1 passes the test, the loop ends below [F_DDA]. *)
Lemma overclock_loop_below k : forall f,
  k <> 0%nat ->
  (base * Double.of_int 1 <? F_DDA P)%float = true ->
  (overclock_loop P f base k <? F_DDA P)%float = true.
Proof.
  induction k as [|k IH]; intros f Hk H1; [congruence|].
  cbn [overclock_loop].
  destruct (base * Double.of_int (Z.of_nat (S k)) <? F_DDA P)%float eqn:E.
  - exact E.
  - destruct k as [|k].
    + change (Z.of_nat 1) with 1 in E. congruence.
    + apply IH; [congruence|exact H1].
Qed.

(** When no multiplier passes the test, the loop ends on the base rate
    times 1, which is not below [F_DDA]. *)
Lemma overclock_loop_none_pass k : forall f,
  k <> 0%nat ->
  (forall j, (1 <= j <= k)%nat ->
     (base * Double.of_int (Z.of_nat j) <? F_DDA P)%float = false) ->
  overclock_loop P f base k = (base * Double.of_int 1)%float.
Proof.
  induction k as [|k IH]; intros f Hk Hall; [congruence|].
  cbn [overclock_loop]. rewrite (Hall (S k)) by lia.
  destruct k as [|k]; [reflexivity|].
  apply IH; [congruence|]. intros j Hj. apply Hall. lia.
Qed.

Lemma multiples_ordered_spec d :
  multiples_ordered base d = true ->
  forall j k, (1 <= j <= k)%nat -> (k <= d)%nat ->
    (base * Double.of_int (Z.of_nat j)
     <=? base * Double.of_int (Z.of_nat k))%float = true.
Proof.
  unfold multiples_ordered. rewrite List.forallb_forall.
  intros H j k Hjk Hk.
  specialize (H k). rewrite List.forallb_forall in H.
  apply H; apply List.in_seq; lia.
Qed.

(** A higher starting multiplier never ends on a lower multiple. *)
Lemma overclock_loop_mono f d1 n :
  d1 <> 0%nat ->
  (forall j k, (1 <= j <= k)%nat -> (k <= d1 + n)%nat ->
     (base * Double.of_int (Z.of_nat j)
      <=? base * Double.of_int (Z.of_nat k))%float = true) ->
  (overclock_loop P f base d1
   <=? overclock_loop P f base (d1 + n))%float = true.
Proof.
  intros Hd. induction n as [|n IH]; intros Hord.
  - rewrite Nat.add_0_r.
    destruct (overclock_loop_pick d1 f Hd) as (j & Hj & ->).
    apply Hord; lia.
  - rewrite Nat.add_succ_r. cbn [overclock_loop].
    destruct (base * Double.of_int (Z.of_nat (S (d1 + n))) <? F_DDA P)%float.
    + destruct (overclock_loop_pick d1 f Hd) as (j & Hj & ->).
      apply Hord; lia.
    + rewrite (overclock_loop_entry
                 (base * Double.of_int (Z.of_nat (S (d1 + n))))%float f
                 (d1 + n)) by lia.
      apply IH. intros j k Hjk Hk. apply Hord; lia.
Qed.

End Search.

Lemma overclock_loop_with_overclock d P base k : forall f,
  overclock_loop (with_overclock d P) f base k = overclock_loop P f base k.
Proof.
  induction k as [|k IH]; intros f; [reflexivity|].
  cbn [overclock_loop]. rewrite IH. reflexivity.
Qed.

(** The clock chosen "assuming the line will fit" is below [F_DDA] or is
    [F_DDA_MIN], provided overclocking is on and multiplier 1 passes. *)
Lemma dda_clock_bounded P f_dda base :
  1 <= DDA_OVERCLOCK P <= 255 ->
  (F_DDA_MIN P <=? F_DDA P)%float = true ->
  (base * Double.of_int 1 <? F_DDA P)%float = true ->
  (dda_clock P f_dda base <=? F_DDA P)%float = true.
Proof.
  intros Hoc Hmin H1. unfold dda_clock.
  destruct (Z.eqb_spec (DDA_OVERCLOCK P) 0); [lia|].
  destruct (base * Double.of_int (DDA_OVERCLOCK P) <? F_DDA_MIN P)%float;
    [exact Hmin|].
  apply ltb_leb, overclock_loop_below; [|exact H1].
  rewrite Z.mod_small by lia. lia.
Qed.

(** With overclocking on, a rate that is not too slow and no multiple of
    it below [F_DDA], the clock is the base rate times 1: nothing holds it
    under [F_DDA]. *)
Lemma dda_clock_falls_through P f_dda base :
  1 <= DDA_OVERCLOCK P <= 255 ->
  (base * Double.of_int (DDA_OVERCLOCK P) <? F_DDA_MIN P)%float = false ->
  (forall j, (1 <= j <= Z.to_nat (DDA_OVERCLOCK P))%nat ->
     (base * Double.of_int (Z.of_nat j) <? F_DDA P)%float = false) ->
  dda_clock P f_dda base = (base * Double.of_int 1)%float.
Proof.
  intros Hoc Hslow Hall. unfold dda_clock.
  destruct (Z.eqb_spec (DDA_OVERCLOCK P) 0); [lia|].
  rewrite Hslow, Z.mod_small by lia.
  apply overclock_loop_none_pass; [lia|exact Hall].
Qed.

Lemma fallback_clock_bounded P base :
  (F_DDA_MIN P <=? F_DDA P)%float = true ->
  (base <? F_DDA P)%float = true ->
  (fallback_clock P base <=? F_DDA P)%float = true.
Proof.
  intros Hmin Hb. unfold fallback_clock.
  destruct (base <? F_DDA_MIN P)%float; [exact Hmin|apply ltb_leb, Hb].
Qed.

Lemma dda_clock_monotone P f_dda base d1 :
  1 <= d1 <= DDA_OVERCLOCK P -> DDA_OVERCLOCK P <= 255 ->
  multiples_ordered base (Z.to_nat (DDA_OVERCLOCK P)) = true ->
  (base * Double.of_int d1 <? F_DDA_MIN P)%float = false ->
  (dda_clock (with_overclock d1 P) f_dda base
   <=? dda_clock P f_dda base)%float = true.
Proof.
  intros Hd Hoc Hord Hd1.
  pose proof (multiples_ordered_spec base _ Hord) as Hle.
  assert (Hd2 : (base * Double.of_int (DDA_OVERCLOCK P)
                 <? F_DDA_MIN P)%float = false).
  { destruct (base * Double.of_int (DDA_OVERCLOCK P) <? F_DDA_MIN P)%float
      eqn:E; [|reflexivity].
    specialize (Hle (Z.to_nat d1) (Z.to_nat (DDA_OVERCLOCK P))).
    rewrite !Z2Nat.id in Hle by lia.
    rewrite (leb_ltb_trans _ _ _ (Hle ltac:(lia) ltac:(lia)) E) in Hd1.
    discriminate. }
  unfold dda_clock; simpl.
  destruct (Z.eqb_spec d1 0); [lia|].
  destruct (Z.eqb_spec (DDA_OVERCLOCK P) 0); [lia|].
  rewrite Hd1, Hd2, overclock_loop_with_overclock.
  rewrite !Z.mod_small by lia.
  replace (Z.to_nat (DDA_OVERCLOCK P))
    with (Z.to_nat d1 + (Z.to_nat (DDA_OVERCLOCK P) - Z.to_nat d1))%nat
    by lia.
  apply overclock_loop_mono; [lia|].
  intros j k Hjk Hk. apply Hle; lia.
Qed.

(** C4, as amended. With overclocking enabled, [F_DDA_MIN] not above
    [F_DDA] and a base rate that is itself below [F_DDA], the frequency
    [_mq_set_f_dda] returns never exceeds [F_DDA]; it is the clock chosen
    by the search or, when the overflow guard gives up the overclocking,
    the fallback clock, which does not depend on the ceiling. The clock
    chosen by the search is monotone in the ceiling: for a smaller ceiling
    [d1] whose multiple of the base rate is not below [F_DDA_MIN], and
    multiples of the base rate that are in order, the clock for [d1] is
    not above the clock for [DDA_OVERCLOCK]. *)
Theorem f_dda_bounded_and_monotone
    P f_dda dda_substeps major_axis_steps microseconds d1 :
  1 <= d1 <= DDA_OVERCLOCK P -> DDA_OVERCLOCK P <= 255 ->
  (F_DDA_MIN P <=? F_DDA P)%float = true ->
  (f_dda_base major_axis_steps microseconds <? F_DDA P)%float = true ->
  (f_dda_base major_axis_steps microseconds * Double.of_int 1
     <? F_DDA P)%float = true ->
  halves_below_one (pred substep_fuel) dda_substeps = true ->
  exists f s traps,
    _mq_set_f_dda P f_dda dda_substeps major_axis_steps microseconds
      = Some (f, s, traps) /\
    (f <=? F_DDA P)%float = true /\
    (f = dda_clock P f_dda (f_dda_base major_axis_steps microseconds) \/
     f = fallback_clock P (f_dda_base major_axis_steps microseconds)) /\
    (multiples_ordered (f_dda_base major_axis_steps microseconds)
       (Z.to_nat (DDA_OVERCLOCK P)) = true ->
     (f_dda_base major_axis_steps microseconds * Double.of_int d1
        <? F_DDA_MIN P)%float = false ->
     (dda_clock (with_overclock d1 P) f_dda
        (f_dda_base major_axis_steps microseconds)
      <=? dda_clock P f_dda
            (f_dda_base major_axis_steps microseconds))%float = true).
Proof.
  intros Hd Hoc Hmin Hb Hb1 Hhalve.
  destruct (_mq_set_f_dda_spec P f_dda dda_substeps major_axis_steps
              microseconds Hhalve) as ([[f s] traps] & Hq & Hr).
  exists f, s, traps. split; [exact Hq|].
  pose proof (guard_result_clock _ _ _ _ _ _ _ _ _ Hr) as Hf.
  split; [|split; [exact Hf|]].
  - destruct Hf as [->| ->].
    + apply dda_clock_bounded; [lia|assumption..].
    + apply fallback_clock_bounded; assumption.
  - intros Hord Hd1. apply dda_clock_monotone; assumption.
Qed.

Lemma f_dda_bounded_and_monotone_witness :
  exists f s traps,
    _mq_set_f_dda example_params 50000 1000000 1000 1000000
      = Some (f, s, traps) /\
    (f <=? 50000)%float = true /\
    (dda_clock (with_overclock 2 example_params) 50000
       (f_dda_base 1000 1000000)
     <=? dda_clock example_params 50000 (f_dda_base 1000 1000000))%float
    = true.
Proof.
  destruct (f_dda_bounded_and_monotone example_params 50000 1000000
              1000 1000000 2)
    as (f & s & traps & Hq & Hle & _ & Hmono);
    try (vm_compute; reflexivity).
  - simpl. lia.
  - simpl. lia.
  - exists f, s, traps. split; [exact Hq|]. split; [exact Hle|].
    apply Hmono; vm_compute; reflexivity.
Defined.

(** C4 as first stated fails twice on valid input. A hundred thousand
    steps in one second: no multiple of the base rate is below [F_DDA], the
    search ends on the base rate, 100 kHz, twice the 50 kHz maximum. A
    billion steps in a million seconds: with ceiling 2 the frequency is
    2 kHz, with ceiling 16 the overflow guard gives up the overclocking
    and the frequency is the base rate, 1 kHz. *)
Lemma f_dda_exceeds_F_DDA_and_drops :
  ((1 <=? 100000)%float = true /\
   Double.isfinite 1000000 = true /\ (0 <? 1000000)%float = true /\
   _mq_set_f_dda example_params 50000 1000000 100000 1000000
     = Some (100000, 31250, [])%float /\
   (F_DDA example_params <? 100000)%float = true) /\
  ((1 <=? 1000000000)%float = true /\
   Double.isfinite 1000000000000 = true /\
   (0 <? 1000000000000)%float = true /\
   _mq_set_f_dda (with_overclock 2 example_params) 50000 1000000
     1000000000 1000000000000 = Some (2000, 1.9073486328125, [])%float /\
   _mq_set_f_dda example_params 50000 1000000
     1000000000 1000000000000 = Some (1000, 1, [])%float /\
   (1000 <? 2000)%float = true).
Proof. repeat split; vm_compute; reflexivity. Qed.

(** ** Submission: [mq_queue_line] and [mq_queue_dwell] *)

Lemma lookup_map_seq {A} (g : nat -> A) n : forall start i,
  (i < n)%nat -> map g (seq start n) !! i = Some (g (start + i)%nat).
Proof.
  induction n as [|n IH]; intros start i Hi; [lia|].
  destruct i as [|i]; simpl.
  - rewrite Nat.add_0_r. reflexivity.
  - rewrite IH by lia. f_equal. f_equal. lia.
Qed.

(** Outside the degenerate inputs the call returns, and not with
    [TG_ZERO_LENGTH_MOVE]. *)
Lemma mq_queue_line_proper P steps microseconds mq :
  substeps_halve_out P ->
  degenerate P steps microseconds = false ->
  exists status mq' events,
    mq_queue_line P steps microseconds mq = Some (status, mq', events) /\
    status <> TG_ZERO_LENGTH_MOVE.
Proof.
  intros Hhalve Hd.
  destruct (_mq_set_f_dda_spec P (F_DDA P) (DDA_SUBSTEPS P)
              (snd (scan_steps P steps)) microseconds Hhalve)
    as ([[f s] traps] & Hq & _).
  rewrite degenerate_split in Hd. unfold mq_queue_line.
  destruct (scan_steps P steps) as [len maj]; simpl in *.
  apply orb_false_elim in Hd as [-> ->].
  destruct (mq_queue_motor_buffer P mq) as [[i|] mq1].
  - rewrite Hq. unfold _mq_request_load.
    eexists _, _, _. split; [reflexivity|discriminate].
  - eexists _, _, _. split; [reflexivity|discriminate].
Qed.

(** What a call that returned [TG_OK] has done. *)
Lemma mq_queue_line_ok_inv P steps microseconds mq mq' events :
  wf P mq ->
  mq_queue_line P steps microseconds mq = Some (TG_OK, mq', events) ->
  exists f s traps,
    _mq_set_f_dda P (F_DDA P) (DDA_SUBSTEPS P) (snd (scan_steps P steps))
      microseconds = Some (f, s, traps) /\
    degenerate P steps microseconds = false /\
    head mq <> tail mq /\
    events = traps ++ [st_request_load] /\
    mq' = {| head := incr_wrap P (head mq); tail := tail mq;
             previous_ticks :=
               Double.to_uint32 (fixuns_undefined P)
                 ((microseconds / 1000000) * f)%float;
             p := Some (Z.to_nat (head mq));
             move_buffer :=
               <[Z.to_nat (head mq) :=
                   line_move P steps microseconds f s (previous_ticks mq)]>
                 (move_buffer mq) |}.
Proof.
  intros Hwf Hq.
  destruct (degenerate P steps microseconds) eqn:Hd.
  { rewrite mq_queue_line_degenerate in Hq by assumption. discriminate. }
  destruct (Z.eq_dec (head mq) (tail mq)) as [E|N].
  { rewrite mq_queue_line_full in Hq by assumption. discriminate. }
  destruct (wf_lookup P mq Hwf) as [m Hm].
  destruct (_mq_set_f_dda P (F_DDA P) (DDA_SUBSTEPS P)
              (snd (scan_steps P steps)) microseconds)
    as [[[f s] traps]|] eqn:Hset.
  - rewrite (mq_queue_line_ok _ _ _ _ _ _ _ _ Hd Hwf N Hm Hset) in Hq.
    injection Hq as <- <-.
    exists f, s, traps. repeat split; auto.
  - rewrite mq_queue_line_diverges in Hq by assumption. discriminate.
Qed.

Lemma wf_example : wf example_params (mq_init example_params blank_mq).
Proof. unfold wf; vm_compute. repeat split; easy. Qed.

(** C5, as amended. After every successful [mq_queue_line] the slot that
    was reserved (the one at the old head) is ready, is a line, and holds,
    for the clock [f] and multiplier [s] of [_mq_set_f_dda]: per motor, the
    direction [(steps < 0) xor polarity] and the step count
    [fabs (steps * s)] cut to its integral part (truncated, not rounded);
    the timer period of [f]; the tick count [microseconds/1000000 * f] and
    the scaled tick count [microseconds/1000000 * f * s], both cut to their
    integral part. *)
Theorem line_slot_contents P motor_steps microseconds mq mq' events :
  wf P mq ->
  mq_queue_line P motor_steps microseconds mq = Some (TG_OK, mq', events) ->
  exists f s traps m,
    _mq_set_f_dda P (F_DDA P) (DDA_SUBSTEPS P) (snd (scan_steps P motor_steps))
      microseconds = Some (f, s, traps) /\
    move_buffer mq' !! Z.to_nat (head mq) = Some m /\
    mq_type m = MQ_LINE /\ mq_state m = MQ_BUFFER_READY /\
    (forall i, (i < MOTORS P)%nat ->
       exists ax, a m !! i = Some ax /\
         dir ax = Z.lxor (if (steps_at motor_steps i <? 0)%float then 1 else 0)
                         (polarity P i) /\
         steps ax =
           Double.to_uint32 (fixuns_undefined P)
             (Double.fabs (steps_at motor_steps i * s))) /\
    timer_period m = _f_to_period P f /\
    timer_ticks m =
      Double.to_uint32 (fixuns_undefined P)
        ((microseconds / 1000000) * f)%float /\
    timer_ticks_X_substeps m =
      Double.to_uint32 (fixuns_undefined P)
        ((microseconds / 1000000) * f * s)%float.
Proof.
  intros Hwf Hq.
  destruct (mq_queue_line_ok_inv P motor_steps microseconds mq mq' events Hwf Hq)
    as (f & s & traps & Hset & _ & _ & _ & ->).
  exists f, s, traps, (line_move P motor_steps microseconds f s (previous_ticks mq)).
  split; [exact Hset|]. split.
  { simpl. apply list_lookup_insert_eq.
    destruct Hwf as (Hh & _ & Hl). lia. }
  repeat split.
  intros i Hi. eexists. split.
  - simpl. unfold motor_parameters. apply lookup_map_seq. exact Hi.
  - split; reflexivity.
Qed.

Lemma line_slot_contents_witness :
  wf example_params (mq_init example_params blank_mq) /\
  exists mq' events m,
    mq_queue_line example_params [-100; 50.5; 0; 0]%float 1000000
      (mq_init example_params blank_mq) = Some (TG_OK, mq', events) /\
    move_buffer mq' !! 0%nat = Some m /\
    timer_ticks m = 1600 /\ timer_ticks_X_substeps m = 1600000000.
Proof.
  split; [exact wf_example|].
  eassert (Hq : mq_queue_line example_params [-100; 50.5; 0; 0]%float 1000000
                  (mq_init example_params blank_mq) = Some (TG_OK, _, _))
    by (vm_compute; reflexivity).
  destruct (line_slot_contents _ _ _ _ _ _ wf_example Hq)
    as (f & s & traps & m & Hset & Hm & _ & _ & _ & _ & Ht & Hts).
  eexists _, _, m. split; [exact Hq|]. split; [exact Hm|].
  vm_compute in Hset. injection Hset as <- <- _.
  split; [exact Ht|exact Hts].
Defined.

(** C5 as first stated fails where rounding and truncation part: one step
    in 1.0035 seconds runs at the 500 Hz floor for 501.75 ticks; the slot
    holds 501, the nearest integer is 502. *)
Lemma timer_ticks_truncated_not_rounded :
  _mq_set_f_dda example_params 50000 1000000 1 1003500
    = Some (500, 1000000, [])%float /\
  match mq_queue_line example_params [1; 0; 0; 0]%float 1003500
          (mq_init example_params blank_mq) with
  | Some (TG_OK, mq', _) =>
      option_map timer_ticks (move_buffer mq' !! 0%nat) = Some 501
  | _ => False
  end /\
  Double.spec_round ((1003500 / 1000000) * 500)%float = Some 502.
Proof. repeat split; vm_compute; reflexivity. Qed.

(** C8. [mq_queue_line] returns, and it returns [TG_ZERO_LENGTH_MOVE]
    exactly when the input is degenerate (duration not finite or below
    epsilon, vector length below 1, major axis below 1); on that return
    the whole [mq] structure is as it was and nothing was signalled: the
    checks come before the reservation. *)
Theorem zero_length_move_leaves_buffer P steps microseconds mq :
  substeps_halve_out P ->
  exists status mq' events,
    mq_queue_line P steps microseconds mq = Some (status, mq', events) /\
    (status = TG_ZERO_LENGTH_MOVE <-> degenerate P steps microseconds = true) /\
    (status = TG_ZERO_LENGTH_MOVE -> mq' = mq /\ events = []).
Proof.
  intros Hhalve.
  destruct (degenerate P steps microseconds) eqn:Hd.
  - exists TG_ZERO_LENGTH_MOVE, mq, [].
    split; [apply mq_queue_line_degenerate; exact Hd|]. tauto.
  - destruct (mq_queue_line_proper P steps microseconds mq Hhalve Hd)
      as (status & mq' & events & Hq & Hne).
    exists status, mq', events. split; [exact Hq|].
    split; [split; [contradiction|discriminate]|contradiction].
Qed.

Lemma zero_length_move_leaves_buffer_witness :
  substeps_halve_out example_params /\
  mq_queue_line example_params [0; 0; 0; 0]%float 10000
    (mq_init example_params blank_mq)
  = Some (TG_ZERO_LENGTH_MOVE, mq_init example_params blank_mq, []).
Proof.
  assert (H : substeps_halve_out example_params)
    by (vm_compute; reflexivity).
  split; [exact H|].
  destruct (zero_length_move_leaves_buffer example_params
              [0; 0; 0; 0]%float 10000 (mq_init example_params blank_mq) H)
    as (status & mq' & events & Hq & Hiff & Hsame).
  assert (Hs : status = TG_ZERO_LENGTH_MOVE)
    by (apply Hiff; vm_compute; reflexivity).
  destruct (Hsame Hs) as [-> ->]. rewrite Hq, Hs. reflexivity.
Defined.

(** C9. In every successful [mq_queue_line] the slot's
    [counter_reset_flag] is set exactly when
    [timer_ticks * COUNTER_RESET_FACTOR], computed modulo 2^32, is below
    the [previous_ticks] found on entry; and [previous_ticks] is the new
    [timer_ticks] afterwards, whatever the flag. *)
Theorem counter_reset_flag_rule P steps microseconds mq mq' events :
  wf P mq ->
  mq_queue_line P steps microseconds mq = Some (TG_OK, mq', events) ->
  exists m,
    move_buffer mq' !! Z.to_nat (head mq) = Some m /\
    counter_reset_flag m =
      ((timer_ticks m * COUNTER_RESET_FACTOR P) mod 2 ^ 32
       <? previous_ticks mq) /\
    previous_ticks mq' = timer_ticks m.
Proof.
  intros Hwf Hq.
  destruct (mq_queue_line_ok_inv P steps microseconds mq mq' events Hwf Hq)
    as (f & s & traps & _ & _ & _ & _ & ->).
  exists (line_move P steps microseconds f s (previous_ticks mq)).
  split; [|split; reflexivity].
  simpl. apply list_lookup_insert_eq.
  destruct Hwf as (Hh & _ & Hl). lia.
Qed.

Lemma wf_after_fast_line : wf example_params after_fast_line.
Proof. unfold wf; vm_compute. repeat split; easy. Qed.

Lemma counter_reset_flag_rule_witness :
  wf example_params after_fast_line /\
  previous_ticks after_fast_line = 16000 /\
  exists mq' events m,
    mq_queue_line example_params [1; 0; 0; 0]%float 1003500 after_fast_line
      = Some (TG_OK, mq', events) /\
    move_buffer mq' !! 1%nat = Some m /\
    timer_ticks m = 501 /\
    counter_reset_flag m = true /\
    previous_ticks mq' = 501.
Proof.
  split; [exact wf_after_fast_line|]. split; [reflexivity|].
  eassert (Hq : mq_queue_line example_params [1; 0; 0; 0]%float 1003500
                  after_fast_line = Some (TG_OK, _, _))
    by (vm_compute; reflexivity).
  destruct (counter_reset_flag_rule _ _ _ _ _ _ wf_after_fast_line Hq)
    as (m & Hm & Hflag & Hprev).
  eexists _, _, m. split; [exact Hq|]. split; [exact Hm|].
  vm_compute in Hm. injection Hm as <-.
  repeat split; reflexivity.
Defined.



(** A dwell of 2.5 seconds is 25000 ticks of the 10 kHz dwell clock. *)
Example mq_queue_dwell_ticks :
  option_map timer_ticks
    (move_buffer (snd (fst (mq_queue_dwell example_params 2500000
                              (mq_init example_params blank_mq))))
       !! 0%nat) = Some 25000.
Proof. vm_compute. reflexivity. Qed.

(** * Further properties of the module *)

(** ** The order of the queue *)

Lemma occupancy_ext P mq1 mq2 :
  head mq1 = head mq2 -> tail mq1 = tail mq2 ->
  occupancy P mq1 = occupancy P mq2.
Proof. unfold occupancy. intros -> ->. reflexivity. Qed.

Lemma queued_ext P mq1 mq2 :
  head mq1 = head mq2 -> tail mq1 = tail mq2 -> queued P mq1 = queued P mq2.
Proof.
  intros Hh Ht. unfold queued.
  rewrite (occupancy_ext P mq1 mq2 Hh Ht), Ht. reflexivity.
Qed.

(** Counting on from tail by the number of queued moves leads to head. *)
Lemma head_after_queued P mq :
  capacity_ok P -> wf P mq ->
  (tail mq + 1 + occupancy P mq) mod MQ_BUFFER_SIZE P = head mq.
Proof.
  intros [Hlo Hhi] (Hh & Ht & _). unfold occupancy.
  rewrite Zplus_mod_idemp_r.
  replace (tail mq + 1 + (head mq - tail mq - 1)) with (head mq) by lia.
  apply Z.mod_small. lia.
Qed.

(** A move of head to the next index puts the old head at the end. *)
Lemma queued_snoc P mq mq' :
  capacity_ok P -> wf P mq -> head mq <> tail mq ->
  head mq' = incr_wrap P (head mq) -> tail mq' = tail mq ->
  queued P mq' = queued P mq ++ [Z.to_nat (head mq)].
Proof.
  intros HC Hwf Hne Hh Ht.
  destruct (mq_queue_motor_buffer_space P mq Hne)
    as (mq1 & Hq & Hh1 & Ht1 & _).
  assert (Hocc : occupancy P mq' = occupancy P mq + 1).
  { rewrite (occupancy_ext P mq' mq1) by congruence.
    pose proof (occupancy_reserve P mq HC Hwf Hne) as Ho.
    rewrite Hq in Ho. exact Ho. }
  pose proof (occupancy_range P mq HC Hwf) as Hr.
  unfold queued. rewrite Hocc, Ht.
  replace (Z.to_nat (occupancy P mq + 1))
    with (S (Z.to_nat (occupancy P mq))) by lia.
  rewrite seq_S, map_app. simpl. repeat f_equal.
  rewrite Z2Nat.id by lia. apply head_after_queued; assumption.
Qed.

(** A move of tail to the next index takes the first one away. *)
Lemma queued_pop P mq mq' :
  capacity_ok P -> wf P mq -> incr_wrap P (tail mq) <> head mq ->
  head mq' = head mq -> tail mq' = incr_wrap P (tail mq) ->
  queued P mq = Z.to_nat (incr_wrap P (tail mq)) :: queued P mq'.
Proof.
  intros HC Hwf Hne Hh Ht.
  assert (Hocc : occupancy P mq' = occupancy P mq - 1).
  { rewrite (occupancy_ext P mq' (snd (mq_dequeue_motor_buffer P mq))).
    - apply occupancy_dequeue; assumption.
    - rewrite mq_dequeue_motor_buffer_some by assumption. exact Hh.
    - rewrite mq_dequeue_motor_buffer_some by assumption. exact Ht. }
  pose proof (occupancy_range P mq HC Hwf) as Hr.
  assert (Hpos : occupancy P mq <> 0)
    by (rewrite occupancy_empty by assumption; exact Hne).
  pose proof Hwf as (_ & Htl & _). pose proof HC as [Hlo Hhi].
  unfold queued. rewrite Hocc, Ht.
  replace (Z.to_nat (occupancy P mq))
    with (S (Z.to_nat (occupancy P mq - 1))) by lia.
  cbn [seq map]. f_equal.
  - rewrite incr_wrap_mod by assumption. f_equal. f_equal. lia.
  - rewrite <- seq_shift, map_map. apply map_ext. intros k.
    rewrite incr_wrap_mod by assumption. f_equal.
    replace ((tail mq + 1) mod MQ_BUFFER_SIZE P + 1 + Z.of_nat k)
      with ((tail mq + 1) mod MQ_BUFFER_SIZE P + (1 + Z.of_nat k)) by lia.
    rewrite Zplus_mod_idemp_l. f_equal. lia.
Qed.

Lemma mod_shift_inj c x j k :
  0 <= j < c -> 0 <= k < c -> (x + j) mod c = (x + k) mod c -> j = k.
Proof.
  intros Hj Hk H.
  assert (Hc : 0 < c) by lia.
  pose proof (Z.div_mod (x + j) c ltac:(lia)) as Ej.
  pose proof (Z.div_mod (x + k) c ltac:(lia)) as Ek.
  rewrite H in Ej.
  assert (E : j - k = c * ((x + j) / c - (x + k) / c)) by lia.
  assert (Hq : (x + j) / c - (x + k) / c = 0) by nia.
  rewrite Hq in E. lia.
Qed.

Lemma in_queued P mq i :
  In i (queued P mq) <->
  exists k, 0 <= k < occupancy P mq /\
            i = Z.to_nat ((tail mq + 1 + k) mod MQ_BUFFER_SIZE P).
Proof.
  unfold queued. rewrite in_map_iff. split.
  - intros (k & <- & Hk). apply in_seq in Hk. exists (Z.of_nat k).
    split; [lia|reflexivity].
  - intros (k & Hk & ->). exists (Z.to_nat k).
    split; [rewrite Z2Nat.id by lia; reflexivity|apply in_seq; lia].
Qed.

Lemma length_queued P mq :
  length (queued P mq) = Z.to_nat (occupancy P mq).
Proof. unfold queued. rewrite length_map, length_seq. reflexivity. Qed.

Lemma queued_nil P mq :
  capacity_ok P -> wf P mq ->
  (fst (mq_dequeue_motor_buffer P mq) = None <-> queued P mq = []).
Proof.
  intros HC Hwf. pose proof (occupancy_range P mq HC Hwf) as Hr.
  rewrite mq_dequeue_motor_buffer_none.
  rewrite <- (occupancy_empty P mq HC Hwf).
  rewrite <- length_zero_iff_nil, length_queued. lia.
Qed.

Lemma queued_full P mq :
  capacity_ok P -> wf P mq ->
  (fst (mq_queue_motor_buffer P mq) = None
     <-> Z.of_nat (length (queued P mq)) = MQ_BUFFER_SIZE P - 1).
Proof.
  intros HC Hwf. pose proof (occupancy_range P mq HC Hwf) as Hr.
  rewrite mq_queue_motor_buffer_none.
  rewrite <- (occupancy_full P mq HC Hwf).
  rewrite length_queued. lia.
Qed.

Lemma queued_dequeue P mq i :
  capacity_ok P -> wf P mq ->
  fst (mq_dequeue_motor_buffer P mq) = Some i ->
  queued P mq = i :: queued P (snd (mq_dequeue_motor_buffer P mq)).
Proof.
  intros HC Hwf Hi.
  destruct (Z.eq_dec (incr_wrap P (tail mq)) (head mq)) as [E|N].
  { rewrite mq_dequeue_motor_buffer_empty in Hi by assumption.
    discriminate. }
  rewrite mq_dequeue_motor_buffer_some in * by assumption.
  simpl in Hi. injection Hi as <-.
  apply queued_pop; try assumption; reflexivity.
Qed.

(** X1. The queue is first in, first out. In a well-formed buffer a
    granted reservation hands out the slot at head and puts it behind the
    slots that wait; a granted dequeue hands out the first slot that waits
    and leaves the others waiting in their order; a dequeue returns nothing
    exactly when no slot waits, a reservation exactly when C-1 do. *)
Theorem queue_is_first_in_first_out P mq :
  capacity_ok P -> wf P mq ->
  (fst (mq_queue_motor_buffer P mq) <> None ->
     fst (mq_queue_motor_buffer P mq) = Some (Z.to_nat (head mq)) /\
     queued P (snd (mq_queue_motor_buffer P mq))
       = queued P mq ++ [Z.to_nat (head mq)]) /\
  (forall i, fst (mq_dequeue_motor_buffer P mq) = Some i ->
     queued P mq = i :: queued P (snd (mq_dequeue_motor_buffer P mq))) /\
  (fst (mq_dequeue_motor_buffer P mq) = None <-> queued P mq = []) /\
  (fst (mq_queue_motor_buffer P mq) = None
     <-> Z.of_nat (length (queued P mq)) = MQ_BUFFER_SIZE P - 1).
Proof.
  intros HC Hwf. split; [|split; [|split]].
  - intros Hsome. rewrite mq_queue_motor_buffer_none in Hsome.
    destruct (mq_queue_motor_buffer_space P mq Hsome)
      as (mq' & Hq & Hh & Ht & _).
    rewrite Hq. split; [reflexivity|].
    apply queued_snoc; assumption.
  - intros i Hi. apply queued_dequeue; assumption.
  - apply queued_nil; assumption.
  - apply queued_full; assumption.
Qed.

Lemma queue_is_first_in_first_out_witness :
  capacity_ok example_params /\
  wf example_params after_fast_line /\
  queued example_params after_fast_line = [0%nat] /\
  queued example_params
    (snd (mq_queue_motor_buffer example_params after_fast_line))
  = [0%nat; 1%nat].
Proof.
  assert (HC : capacity_ok example_params)
    by (unfold capacity_ok; simpl; lia).
  split; [exact HC|]. split; [exact wf_after_fast_line|].
  split; [reflexivity|].
  destruct (queue_is_first_in_first_out example_params after_fast_line
              HC wf_after_fast_line) as (Hres & _).
  destruct Hres as [_ Hq]; [discriminate|]. exact Hq.
Defined.

(** Enough dequeues in a row hand out the waiting slots in their order. *)
Lemma drain_spec P n : forall mq,
  capacity_ok P -> wf P mq ->
  (length (queued P mq) <= n)%nat ->
  fst (drain P n mq) = queued P mq /\
  wf P (snd (drain P n mq)) /\
  queued P (snd (drain P n mq)) = [] /\
  head (snd (drain P n mq)) = head mq /\
  previous_ticks (snd (drain P n mq)) = previous_ticks mq /\
  move_buffer (snd (drain P n mq)) = move_buffer mq.
Proof.
  induction n as [|n IH]; intros mq HC Hwf Hn.
  - simpl. destruct (queued P mq); [|simpl in Hn; lia].
    repeat (split; [first [reflexivity|assumption]|]);
      first [reflexivity|assumption].
  - pose proof (wf_mq_dequeue_motor_buffer P mq HC Hwf) as Hwf'.
    pose proof (queued_dequeue P mq) as Hpop.
    cbn [drain].
    destruct (Z.eq_dec (incr_wrap P (tail mq)) (head mq)) as [E|N].
    + assert (Hq : queued P mq = []).
      { apply queued_nil; [assumption..|].
        rewrite mq_dequeue_motor_buffer_empty by assumption. reflexivity. }
      rewrite mq_dequeue_motor_buffer_empty by assumption.
      simpl. rewrite Hq.
      repeat (split; [first [reflexivity|assumption]|]);
      first [reflexivity|assumption].
    + rewrite mq_dequeue_motor_buffer_some in * by assumption.
      simpl in Hpop, Hwf'.
      specialize (Hpop _ HC Hwf eq_refl).
      set (mq' := set_p _ _) in *.
      destruct (IH mq' HC Hwf') as (H1 & H0 & H2 & H3 & H4 & H5).
      { rewrite Hpop in Hn. simpl in Hn. lia. }
      destruct (drain P n mq') as [l mq''] eqn:Hd. simpl in *.
      rewrite Hpop, H1.
      repeat (split; [first [reflexivity|assumption]|]);
      first [reflexivity|assumption].
Qed.

(** X2. Dequeuing until nothing is returned hands out exactly the waiting
    slots, oldest first, and touches neither head, nor [previous_ticks],
    nor any slot: the buffer moves the index, never the contents. *)
Theorem drain_returns_queued P n mq :
  capacity_ok P -> wf P mq ->
  (length (queued P mq) <= n)%nat ->
  fst (drain P n mq) = queued P mq /\
  queued P (snd (drain P n mq)) = [] /\
  head (snd (drain P n mq)) = head mq /\
  previous_ticks (snd (drain P n mq)) = previous_ticks mq /\
  move_buffer (snd (drain P n mq)) = move_buffer mq /\
  fst (mq_dequeue_motor_buffer P (snd (drain P n mq))) = None.
Proof.
  intros HC Hwf Hn.
  destruct (drain_spec P n mq HC Hwf Hn) as (H1 & H0 & H2 & H3 & H4 & H5).
  repeat (split; [assumption|]).
  apply queued_nil; assumption.
Qed.

Lemma drain_returns_queued_witness :
  capacity_ok example_params /\
  wf example_params after_fast_line /\
  (length (queued example_params after_fast_line) <= 2)%nat /\
  fst (drain example_params 2 after_fast_line) = [0%nat] /\
  move_buffer (snd (drain example_params 2 after_fast_line))
    = move_buffer after_fast_line.
Proof.
  assert (HC : capacity_ok example_params)
    by (unfold capacity_ok; simpl; lia).
  assert (Hn : (length (queued example_params after_fast_line) <= 2)%nat)
    by (vm_compute; lia).
  split; [exact HC|]. split; [exact wf_after_fast_line|].
  split; [exact Hn|].
  destruct (drain_returns_queued example_params 2 after_fast_line
              HC wf_after_fast_line Hn) as (H1 & _ & _ & _ & H5 & _).
  split; [exact H1|exact H5].
Defined.

(** No index occurs twice among the waiting slots, and head is not one of
    them. *)
Lemma queued_nodup_without_head P mq :
  capacity_ok P -> wf P mq ->
  List.NoDup (queued P mq) /\ ~ In (Z.to_nat (head mq)) (queued P mq).
Proof.
  intros HC Hwf.
  pose proof (occupancy_range P mq HC Hwf) as Hr.
  pose proof HC as [Hlo Hhi].
  assert (Hmod : forall k, 0 <= (tail mq + 1 + k) mod MQ_BUFFER_SIZE P)
    by (intros k; apply Z.mod_pos_bound; lia).
  split.
  - unfold queued. apply NoDup_map_NoDup_ForallPairs; [|apply seq_NoDup].
    intros j k Hj Hk E. apply in_seq in Hj, Hk.
    apply Z2Nat.inj in E; [|apply Hmod..].
    apply mod_shift_inj in E; lia.
  - rewrite in_queued. intros (k & Hk & E).
    rewrite <- (head_after_queued P mq HC Hwf) in E at 1.
    apply Z2Nat.inj in E; [|apply Hmod..].
    apply mod_shift_inj in E; lia.
Qed.

(** Dequeues in a row hand out a first part of the waiting slots. *)
Lemma drain_prefix P n : forall mq,
  capacity_ok P -> wf P mq ->
  exists rest, queued P mq = fst (drain P n mq) ++ rest.
Proof.
  induction n as [|n IH]; intros mq HC Hwf.
  - exists (queued P mq). reflexivity.
  - pose proof (wf_mq_dequeue_motor_buffer P mq HC Hwf) as Hwf'.
    pose proof (queued_dequeue P mq) as Hpop.
    cbn [drain].
    destruct (Z.eq_dec (incr_wrap P (tail mq)) (head mq)) as [E|N].
    + rewrite mq_dequeue_motor_buffer_empty by assumption.
      exists (queued P mq). reflexivity.
    + rewrite mq_dequeue_motor_buffer_some in * by assumption.
      simpl in Hpop, Hwf'.
      specialize (Hpop _ HC Hwf eq_refl).
      set (mq' := set_p _ _) in *.
      destruct (IH mq' HC Hwf') as (rest & Hrest).
      destruct (drain P n mq') as [l mq''] eqn:Hd. simpl in *.
      exists rest. rewrite Hpop, Hrest. reflexivity.
Qed.

(** ** Submissions and the queue *)

Lemma mq_queue_stops_full P type mq :
  head mq = tail mq ->
  mq_queue_stops P type mq = (TG_BUFFER_FULL_NON_FATAL, set_p None mq, []).
Proof.
  intros H. unfold mq_queue_stops.
  rewrite mq_queue_motor_buffer_full by assumption. reflexivity.
Qed.

Lemma mq_queue_stops_ok P type mq m :
  head mq <> tail mq ->
  move_buffer mq !! Z.to_nat (head mq) = Some m ->
  mq_queue_stops P type mq =
    (TG_OK,
     {| head := incr_wrap P (head mq); tail := tail mq;
        previous_ticks := previous_ticks mq;
        p := Some (Z.to_nat (head mq));
        move_buffer :=
          <[Z.to_nat (head mq) :=
              set_mq_state MQ_BUFFER_READY (set_mq_type type m)]>
            (move_buffer mq) |},
     [st_request_load]).
Proof.
  intros Hne Hm. unfold mq_queue_stops.
  assert (Hi : (Z.to_nat (head mq) < length (move_buffer mq))%nat)
    by (apply lookup_lt_is_Some; eauto).
  rewrite (mq_queue_motor_buffer_slot P mq m Hne Hm).
  unfold set_p, _mq_request_load; simpl.
  repeat (rewrite ?store_p_mk by exact Hi; simpl).
  reflexivity.
Qed.

(** With room in the buffer and a quantizer that returns, a line that is
    not degenerate is accepted. *)
Lemma mq_queue_line_accepts P steps microseconds mq :
  substeps_halve_out P ->
  degenerate P steps microseconds = false ->
  head mq <> tail mq ->
  exists mq' events,
    mq_queue_line P steps microseconds mq = Some (TG_OK, mq', events).
Proof.
  intros Hhalve Hd Hne.
  destruct (_mq_set_f_dda_spec P (F_DDA P) (DDA_SUBSTEPS P)
              (snd (scan_steps P steps)) microseconds Hhalve)
    as ([[f s] traps] & Hq & _).
  rewrite degenerate_split in Hd. unfold mq_queue_line.
  destruct (scan_steps P steps) as [len maj]; simpl in *.
  apply orb_false_elim in Hd as [-> ->].
  destruct (mq_queue_motor_buffer_space P mq Hne) as (mq1 & -> & _).
  rewrite Hq. unfold _mq_request_load.
  eexists _, _. reflexivity.
Qed.

(** X4. A line that was accepted comes out as it was written: dequeuing
    once more than there were slots waiting hands out those slots and then
    the line's slot, which holds exactly the move [mq_queue_line] computed;
    no dequeue has changed a slot, and the submission has changed no slot
    but its own. *)
Theorem line_comes_out_as_written P steps microseconds mq mq1 events :
  capacity_ok P -> wf P mq ->
  mq_queue_line P steps microseconds mq = Some (TG_OK, mq1, events) ->
  fst (drain P (S (length (queued P mq))) mq1)
    = queued P mq ++ [Z.to_nat (head mq)] /\
  move_buffer (snd (drain P (S (length (queued P mq))) mq1))
    = move_buffer mq1 /\
  (forall j, j <> Z.to_nat (head mq) ->
     move_buffer mq1 !! j = move_buffer mq !! j) /\
  exists f s traps,
    _mq_set_f_dda P (F_DDA P) (DDA_SUBSTEPS P) (snd (scan_steps P steps))
      microseconds = Some (f, s, traps) /\
    move_buffer mq1 !! Z.to_nat (head mq)
      = Some (line_move P steps microseconds f s (previous_ticks mq)).
Proof.
  intros HC Hwf Hq.
  pose proof (wf_mq_queue_line _ _ _ _ _ _ _ HC Hwf Hq) as Hwf1.
  destruct (mq_queue_line_ok_inv P steps microseconds mq mq1 events Hwf Hq)
    as (f & s & traps & Hset & _ & Hne & _ & E).
  assert (Hqd : queued P mq1 = queued P mq ++ [Z.to_nat (head mq)])
    by (apply queued_snoc; try assumption; rewrite E; reflexivity).
  destruct (drain_spec P (S (length (queued P mq))) mq1 HC Hwf1)
    as (H1 & _ & _ & _ & _ & H5).
  { rewrite Hqd, length_app. simpl. lia. }
  split; [rewrite H1; exact Hqd|]. split; [exact H5|].
  assert (Hi : (Z.to_nat (head mq) < length (move_buffer mq))%nat)
    by (destruct Hwf as (Hh & _ & Hl); lia).
  split.
  - intros j Hj. rewrite E. simpl.
    apply list_lookup_insert_ne. congruence.
  - exists f, s, traps. split; [exact Hset|].
    rewrite E. simpl. apply list_lookup_insert_eq. exact Hi.
Qed.

Lemma line_comes_out_as_written_witness :
  capacity_ok example_params /\
  wf example_params after_fast_line /\
  exists mq1 events,
    mq_queue_line example_params [1; 0; 0; 0]%float 1003500 after_fast_line
      = Some (TG_OK, mq1, events) /\
    fst (drain example_params 2 mq1) = [0%nat; 1%nat].
Proof.
  assert (HC : capacity_ok example_params)
    by (unfold capacity_ok; simpl; lia).
  split; [exact HC|]. split; [exact wf_after_fast_line|].
  eassert (Hq : mq_queue_line example_params [1; 0; 0; 0]%float 1003500
                  after_fast_line = Some (TG_OK, _, _))
    by (vm_compute; reflexivity).
  eexists _, _. split; [exact Hq|].
  exact (proj1 (line_comes_out_as_written _ _ _ _ _ _
                  HC wf_after_fast_line Hq)).
Defined.

(** X5. [mq_queue_stops] carries no payload. When a slot is free it
    returns [TG_OK], requests one load, and the slot it took is the slot
    as it was, with the marker's type and the ready state: step counts,
    timer period, tick counts and reset flag are those of whatever used
    the slot before. [previous_ticks] and every other slot stay. *)
Theorem mq_queue_stops_writes_type_only P type mq :
  wf P mq -> head mq <> tail mq ->
  exists m,
    move_buffer mq !! Z.to_nat (head mq) = Some m /\
    mq_queue_stops P type mq =
      (TG_OK,
       {| head := incr_wrap P (head mq); tail := tail mq;
          previous_ticks := previous_ticks mq;
          p := Some (Z.to_nat (head mq));
          move_buffer :=
            <[Z.to_nat (head mq) :=
                {| a := a m;
                   timer_period := timer_period m;
                   timer_ticks := timer_ticks m;
                   timer_ticks_X_substeps := timer_ticks_X_substeps m;
                   counter_reset_flag := counter_reset_flag m;
                   mq_type := type;
                   mq_state := MQ_BUFFER_READY |}]> (move_buffer mq) |},
       [st_request_load]).
Proof.
  intros Hwf Hne. destruct (wf_lookup P mq Hwf) as [m Hm].
  exists m. split; [exact Hm|].
  rewrite (mq_queue_stops_ok P type mq m Hne Hm). reflexivity.
Qed.

Lemma mq_queue_stops_writes_type_only_witness :
  wf example_params after_fast_line /\
  head after_fast_line <> tail after_fast_line /\
  fst (fst (mq_queue_stops example_params MQ_STOP after_fast_line)) = TG_OK.
Proof.
  assert (Hne : head after_fast_line <> tail after_fast_line)
    by (vm_compute; discriminate).
  split; [exact wf_after_fast_line|]. split; [exact Hne|].
  destruct (mq_queue_stops_writes_type_only example_params MQ_STOP
              after_fast_line wf_after_fast_line Hne) as (m & _ & ->).
  reflexivity.
Defined.

(** X6. [mq_queue_dwell] writes the timer period and the tick count and
    nothing else of the move: in the slot it took, the step array, the
    scaled tick count and the counter reset flag are those of the slot's
    earlier use, and [previous_ticks] is not updated, so the next line is
    compared with the last line queued, not with the dwell. *)
Theorem mq_queue_dwell_keeps_stale_fields P microseconds mq :
  wf P mq -> head mq <> tail mq ->
  exists m m',
    move_buffer mq !! Z.to_nat (head mq) = Some m /\
    move_buffer (snd (fst (mq_queue_dwell P microseconds mq)))
      !! Z.to_nat (head mq) = Some m' /\
    a m' = a m /\
    timer_ticks_X_substeps m' = timer_ticks_X_substeps m /\
    counter_reset_flag m' = counter_reset_flag m /\
    previous_ticks (snd (fst (mq_queue_dwell P microseconds mq)))
      = previous_ticks mq /\
    (forall j, j <> Z.to_nat (head mq) ->
       move_buffer (snd (fst (mq_queue_dwell P microseconds mq))) !! j
         = move_buffer mq !! j).
Proof.
  intros Hwf Hne. destruct (wf_lookup P mq Hwf) as [m Hm].
  assert (Hi : (Z.to_nat (head mq) < length (move_buffer mq))%nat)
    by (apply lookup_lt_is_Some; eauto).
  rewrite (mq_queue_dwell_ok P microseconds mq m Hne Hm). simpl.
  eexists m, _. split; [exact Hm|].
  split; [apply list_lookup_insert_eq; exact Hi|].
  repeat split.
  intros j Hj. apply list_lookup_insert_ne. congruence.
Qed.

Lemma mq_queue_dwell_keeps_stale_fields_witness :
  wf example_params after_fast_line /\
  head after_fast_line <> tail after_fast_line /\
  previous_ticks
    (snd (fst (mq_queue_dwell example_params 2500000 after_fast_line)))
  = 16000.
Proof.
  assert (Hne : head after_fast_line <> tail after_fast_line)
    by (vm_compute; discriminate).
  split; [exact wf_after_fast_line|]. split; [exact Hne|].
  destruct (mq_queue_dwell_keeps_stale_fields example_params 2500000
              after_fast_line wf_after_fast_line Hne)
    as (m & m' & _ & _ & _ & _ & _ & Hprev & _).
  rewrite Hprev. reflexivity.
Defined.

(** X3. Nothing the producer does reaches a move that still waits. Take
    the slots that any number of dequeues in a row would hand out from a
    well-formed buffer: no slot is handed out twice; the slot a granted
    reservation returns is none of them; and their contents are the same
    after a reservation, after [mq_queue_line] (whatever it returns),
    after [mq_queue_dwell] and after [mq_queue_stops]. *)
Theorem producer_spares_waiting_slots P n mq :
  capacity_ok P -> wf P mq ->
  List.NoDup (fst (drain P n mq)) /\
  (forall i, fst (mq_queue_motor_buffer P mq) = Some i ->
     ~ In i (fst (drain P n mq))) /\
  (forall j, In j (fst (drain P n mq)) ->
     move_buffer (snd (mq_queue_motor_buffer P mq)) !! j
       = move_buffer mq !! j /\
     (forall steps microseconds status mq' events,
        mq_queue_line P steps microseconds mq = Some (status, mq', events) ->
        move_buffer mq' !! j = move_buffer mq !! j) /\
     (forall microseconds,
        move_buffer (snd (fst (mq_queue_dwell P microseconds mq))) !! j
          = move_buffer mq !! j) /\
     (forall type,
        move_buffer (snd (fst (mq_queue_stops P type mq))) !! j
          = move_buffer mq !! j)).
Proof.
  intros HC Hwf.
  destruct (queued_nodup_without_head P mq HC Hwf) as [Hnd Hhead].
  destruct (drain_prefix P n mq HC Hwf) as (rest & Hrest).
  rewrite Hrest in Hnd, Hhead.
  assert (Hnot : ~ In (Z.to_nat (head mq)) (fst (drain P n mq)))
    by (intros Hin; apply Hhead, in_or_app; left; exact Hin).
  destruct (wf_lookup P mq Hwf) as [m Hm].
  split; [exact (NoDup_app_remove_r _ _ Hnd)|]. split.
  { intros i Hi.
    destruct (Z.eq_dec (head mq) (tail mq)) as [E|N].
    - rewrite mq_queue_motor_buffer_full in Hi by assumption. discriminate.
    - rewrite (mq_queue_motor_buffer_slot P mq m N Hm) in Hi.
      simpl in Hi. injection Hi as <-. exact Hnot. }
  intros j Hj.
  assert (Hne : Z.to_nat (head mq) <> j)
    by (intros E; subst j; exact (Hnot Hj)).
  destruct (Z.eq_dec (head mq) (tail mq)) as [E|N].
  - rewrite mq_queue_motor_buffer_full by assumption.
    split; [reflexivity|]. split; [|split].
    + intros steps us status mq' events Hq.
      destruct (degenerate P steps us) eqn:Hd.
      * rewrite mq_queue_line_degenerate in Hq by assumption.
        injection Hq as _ <- _. reflexivity.
      * rewrite mq_queue_line_full in Hq by assumption.
        injection Hq as _ <- _. reflexivity.
    + intros us. rewrite mq_queue_dwell_full by assumption. reflexivity.
    + intros type. rewrite mq_queue_stops_full by assumption. reflexivity.
  - rewrite (mq_queue_motor_buffer_slot P mq m N Hm). simpl.
    split; [apply list_lookup_insert_ne; exact Hne|]. split; [|split].
    + intros steps us status mq' events Hq.
      destruct (degenerate P steps us) eqn:Hd.
      { rewrite mq_queue_line_degenerate in Hq by assumption.
        injection Hq as _ <- _. reflexivity. }
      destruct (_mq_set_f_dda P (F_DDA P) (DDA_SUBSTEPS P)
                  (snd (scan_steps P steps)) us)
        as [[[f s] traps]|] eqn:Hset.
      * rewrite (mq_queue_line_ok _ _ _ _ _ _ _ _ Hd Hwf N Hm Hset) in Hq.
        injection Hq as _ <- _. simpl.
        apply list_lookup_insert_ne. exact Hne.
      * rewrite mq_queue_line_diverges in Hq by assumption. discriminate.
    + intros us. rewrite (mq_queue_dwell_ok P us mq m N Hm). simpl.
      apply list_lookup_insert_ne. exact Hne.
    + intros type. rewrite (mq_queue_stops_ok P type mq m N Hm). simpl.
      apply list_lookup_insert_ne. exact Hne.
Qed.

Lemma producer_spares_waiting_slots_witness :
  capacity_ok example_params /\
  wf example_params after_fast_line /\
  fst (drain example_params 2 after_fast_line) = [0%nat] /\
  fst (mq_queue_motor_buffer example_params after_fast_line)
    = Some 1%nat /\
  ~ In 1%nat (fst (drain example_params 2 after_fast_line)) /\
  move_buffer
    (snd (fst (mq_queue_dwell example_params 2500000 after_fast_line)))
    !! 0%nat = move_buffer after_fast_line !! 0%nat.
Proof.
  assert (HC : capacity_ok example_params)
    by (unfold capacity_ok; simpl; lia).
  split; [exact HC|]. split; [exact wf_after_fast_line|].
  split; [reflexivity|]. split; [reflexivity|].
  destruct (producer_spares_waiting_slots example_params 2 after_fast_line
              HC wf_after_fast_line) as (_ & Hres & Hkeep).
  split; [exact (Hres 1%nat eq_refl)|].
  destruct (Hkeep 0%nat) as (_ & _ & Hdwell & _); [left; reflexivity|].
  exact (Hdwell 2500000%float).
Defined.

(** X7. A submission that finds the buffer full changes nothing but
    [mq.p], which it leaves [NULL], and signals nothing: head, tail,
    [previous_ticks] and every slot are as they were. This holds for
    dwells, for markers, and for lines that pass the checks. *)
Theorem refused_submission_clears_p_only P mq :
  head mq = tail mq ->
  (forall microseconds,
     mq_queue_dwell P microseconds mq
       = (TG_BUFFER_FULL_NON_FATAL, set_p None mq, [])) /\
  (forall type,
     mq_queue_stops P type mq
       = (TG_BUFFER_FULL_NON_FATAL, set_p None mq, [])) /\
  (forall steps microseconds,
     degenerate P steps microseconds = false ->
     mq_queue_line P steps microseconds mq
       = Some (TG_BUFFER_FULL_NON_FATAL, set_p None mq, [])).
Proof.
  intros Hfull. split; [|split].
  - intros us. apply mq_queue_dwell_full. exact Hfull.
  - intros type. apply mq_queue_stops_full. exact Hfull.
  - intros steps us Hd. apply mq_queue_line_full; assumption.
Qed.

Lemma refused_submission_clears_p_only_witness :
  head (mq_flush_motor_buffer after_fast_line)
    = tail (mq_flush_motor_buffer after_fast_line) /\
  mq_queue_line example_params [100; 0; 0; 0]%float 1000000
    (mq_flush_motor_buffer after_fast_line)
  = Some (TG_BUFFER_FULL_NON_FATAL,
          set_p None (mq_flush_motor_buffer after_fast_line), []).
Proof.
  split; [reflexivity|].
  apply (refused_submission_clears_p_only example_params
           (mq_flush_motor_buffer after_fast_line) eq_refl).
  vm_compute. reflexivity.
Defined.

(** X8. The status of [mq_queue_line] depends on the checks and on the
    room in the buffer only: [TG_BUFFER_FULL_NON_FATAL] exactly for a line
    that passes the checks and finds head equal to tail, [TG_OK] exactly
    for one that passes them and finds room. A trap of the quantizer
    changes neither: the move is published all the same, after at most
    one [TRAP1], with one load request. *)
Theorem mq_queue_line_status P steps microseconds mq :
  substeps_halve_out P -> wf P mq ->
  exists status mq' events,
    mq_queue_line P steps microseconds mq = Some (status, mq', events) /\
    (status = TG_BUFFER_FULL_NON_FATAL
       <-> degenerate P steps microseconds = false /\ head mq = tail mq) /\
    (status = TG_OK
       <-> degenerate P steps microseconds = false /\ head mq <> tail mq) /\
    (status = TG_OK ->
       events = [st_request_load] \/
       events = [TRAP1 (snd (scan_steps P steps)); st_request_load]).
Proof.
  intros Hhalve Hwf.
  destruct (degenerate P steps microseconds) eqn:Hd.
  { exists TG_ZERO_LENGTH_MOVE, mq, [].
    split; [apply mq_queue_line_degenerate; exact Hd|].
    repeat split; try discriminate; intros [? _]; discriminate. }
  destruct (Z.eq_dec (head mq) (tail mq)) as [E|N].
  { exists TG_BUFFER_FULL_NON_FATAL, (set_p None mq), [].
    split; [apply mq_queue_line_full; assumption|].
    repeat split; try discriminate; try assumption.
    intros [_ ?]; contradiction. }
  destruct (wf_lookup P mq Hwf) as [m Hm].
  destruct (_mq_set_f_dda_spec P (F_DDA P) (DDA_SUBSTEPS P)
              (snd (scan_steps P steps)) microseconds Hhalve)
    as ([[f s] traps] & Hset & Hr).
  eexists _, _, _.
  split; [apply (mq_queue_line_ok _ _ _ _ _ _ _ _ Hd Hwf N Hm Hset)|].
  split; [split; [discriminate|intros [_ ?]; contradiction]|].
  split; [split; [auto|reflexivity]|].
  intros _. inversion Hr; subst; [left; reflexivity|].
  destruct (overflows P microseconds _ 1); [right|left]; reflexivity.
Qed.

Lemma mq_queue_line_status_witness :
  substeps_halve_out example_params /\
  wf example_params after_fast_line /\
  exists mq' events,
    mq_queue_line example_params [10000000000; 0; 0; 0]%float 1000000000000
      after_fast_line = Some (TG_OK, mq', events) /\
    (events = [st_request_load] \/
     events = [TRAP1 (snd (scan_steps example_params
                             [10000000000; 0; 0; 0]%float));
               st_request_load]).
Proof.
  assert (H : substeps_halve_out example_params)
    by (vm_compute; reflexivity).
  split; [exact H|]. split; [exact wf_after_fast_line|].
  destruct (mq_queue_line_status example_params
              [10000000000; 0; 0; 0]%float 1000000000000 after_fast_line
              H wf_after_fast_line)
    as (status & mq' & events & Hq & _ & Hok & Hev).
  assert (Hs : status = TG_OK).
  { apply Hok. split; [vm_compute; reflexivity|vm_compute; discriminate]. }
  subst status. exists mq', events. split; [exact Hq|exact (Hev eq_refl)].
Defined.

(** The trapped move of the witness above, as published: the tick count
    does not fit 32 bits, the trap is raised, and the slot is ready with
    whatever the cast made of it. *)
Example trapped_line_is_published :
  match mq_queue_line example_params [10000000000; 0; 0; 0]%float
          1000000000000 after_fast_line with
  | Some (status, mq', events) =>
      status = TG_OK /\
      events = [TRAP1 10000000000; st_request_load] /\
      option_map mq_state (move_buffer mq' !! 1%nat) = Some MQ_BUFFER_READY
  | None => False
  end.
Proof. vm_compute. repeat split. Qed.

(** X9. [mq_dequeue_motor_buffer] does not look at [mq_state]. On an
    empty buffer, a slot that has been reserved and not yet published is
    handed out by the next dequeue, still marked as loading. *)
Theorem unpublished_slot_is_handed_out P mq :
  capacity_ok P -> wf P mq -> incr_wrap P (tail mq) = head mq ->
  exists i mq1 mq2 m,
    mq_queue_motor_buffer P mq = (Some i, mq1) /\
    mq_dequeue_motor_buffer P mq1 = (Some i, mq2) /\
    move_buffer mq2 !! i = Some m /\
    mq_state m = MQ_BUFFER_LOADING.
Proof.
  intros HC Hwf Hempty. pose proof Hwf as (Hh & Ht & Hl).
  assert (Hne : head mq <> tail mq)
    by (rewrite <- Hempty; apply incr_wrap_neq; assumption).
  destruct (wf_lookup P mq Hwf) as [m Hm].
  assert (Hi : (Z.to_nat (head mq) < length (move_buffer mq))%nat)
    by (apply lookup_lt_is_Some; eauto).
  eexists _, _, _, _.
  split; [apply (mq_queue_motor_buffer_slot P mq m Hne Hm)|].
  split; [|split].
  - rewrite mq_dequeue_motor_buffer_some; simpl.
    + rewrite Hempty. reflexivity.
    + rewrite Hempty. intros E. symmetry in E. revert E.
      apply incr_wrap_neq; assumption.
  - simpl. apply list_lookup_insert_eq. exact Hi.
  - reflexivity.
Qed.

Lemma unpublished_slot_is_handed_out_witness :
  capacity_ok example_params /\
  wf example_params (mq_init example_params blank_mq) /\
  incr_wrap example_params (tail (mq_init example_params blank_mq))
    = head (mq_init example_params blank_mq) /\
  exists mq2 m,
    mq_dequeue_motor_buffer example_params
      (snd (mq_queue_motor_buffer example_params
              (mq_init example_params blank_mq))) = (Some 0%nat, mq2) /\
    move_buffer mq2 !! 0%nat = Some m /\
    mq_state m = MQ_BUFFER_LOADING.
Proof.
  assert (HC : capacity_ok example_params)
    by (unfold capacity_ok; simpl; lia).
  split; [exact HC|]. split; [exact wf_example|]. split; [reflexivity|].
  destruct (unpublished_slot_is_handed_out example_params
              (mq_init example_params blank_mq) HC wf_example eq_refl)
    as (i & mq1 & mq2 & m & Hq & Hd & Hm & Hs).
  vm_compute in Hq. injection Hq as <- <-.
  exists mq2, m. split; [exact Hd|]. split; [exact Hm|exact Hs].
Defined.

(** X10. Each index has one writer outside of a flush. Reservations and
    the three submissions never write tail; a dequeue never writes head,
    [previous_ticks] or a slot. *)
Theorem indices_have_one_writer P mq :
  tail (snd (mq_queue_motor_buffer P mq)) = tail mq /\
  (forall microseconds,
     tail (snd (fst (mq_queue_dwell P microseconds mq))) = tail mq) /\
  (forall type, tail (snd (fst (mq_queue_stops P type mq))) = tail mq) /\
  (forall steps microseconds status mq' events,
     mq_queue_line P steps microseconds mq = Some (status, mq', events) ->
     tail mq' = tail mq) /\
  head (snd (mq_dequeue_motor_buffer P mq)) = head mq /\
  previous_ticks (snd (mq_dequeue_motor_buffer P mq)) = previous_ticks mq /\
  move_buffer (snd (mq_dequeue_motor_buffer P mq)) = move_buffer mq.
Proof.
  assert (Hres : tail (snd (mq_queue_motor_buffer P mq)) = tail mq).
  { unfold mq_queue_motor_buffer.
    destruct (tail mq =? head mq); simpl; [reflexivity|].
    rewrite tail_store_p. reflexivity. }
  split; [exact Hres|]. split; [|split; [|split]].
  - intros us. unfold mq_queue_dwell.
    destruct (mq_queue_motor_buffer P mq) as [[i|] mq1]; simpl in *;
      [|exact Hres].
    rewrite !tail_store_p. exact Hres.
  - intros type. unfold mq_queue_stops.
    destruct (mq_queue_motor_buffer P mq) as [[i|] mq1]; simpl in *;
      [|exact Hres].
    rewrite !tail_store_p. exact Hres.
  - intros steps us status mq' events. unfold mq_queue_line.
    destruct (scan_steps P steps) as [len maj].
    destruct (negb (Double.isfinite us) || (us <? EPSILON P)%float);
      [intros H; injection H as _ <- _; reflexivity|].
    destruct ((sqrt len <? 1)%float || (maj <? 1)%float);
      [intros H; injection H as _ <- _; reflexivity|].
    destruct (mq_queue_motor_buffer P mq) as [[i|] mq1]; simpl in *;
      [|intros H; injection H as _ <- _; exact Hres].
    destruct (_mq_set_f_dda P (F_DDA P) (DDA_SUBSTEPS P) maj us)
      as [[[f s] traps]|]; [|discriminate].
    intros H; injection H as _ <- _.
    simpl. rewrite !tail_store_p. simpl. rewrite !tail_store_p. exact Hres.
  - unfold mq_dequeue_motor_buffer.
    destruct (incr_wrap P (tail mq) =? head mq); simpl; auto.
Qed.

Lemma indices_have_one_writer_witness :
  exists status mq' events,
    mq_queue_line example_params [1; 0; 0; 0]%float 1003500 after_fast_line
      = Some (status, mq', events) /\
    tail mq' = 2.
Proof.
  eassert (Hq : mq_queue_line example_params [1; 0; 0; 0]%float 1003500
                  after_fast_line = Some (_, _, _))
    by (vm_compute; reflexivity).
  eexists _, _, _. split; [exact Hq|].
  destruct (indices_have_one_writer example_params after_fast_line)
    as (_ & _ & _ & Hline & _).
  rewrite (Hline _ _ _ _ _ Hq). reflexivity.
Defined.

(** X11. What [mq_test_motor_buffer] promises. When it returns [TRUE] the
    next reservation is granted, a dwell and a marker are accepted, and so
    is every line that passes the checks; when it returns [FALSE] the
    reservation returns nothing. *)
Theorem mq_test_motor_buffer_grants P mq :
  substeps_halve_out P ->
  (mq_test_motor_buffer mq = true ->
     fst (mq_queue_motor_buffer P mq) <> None /\
     (forall microseconds,
        fst (fst (mq_queue_dwell P microseconds mq)) = TG_OK) /\
     (forall type, fst (fst (mq_queue_stops P type mq)) = TG_OK) /\
     (forall steps microseconds,
        degenerate P steps microseconds = false ->
        exists mq' events,
          mq_queue_line P steps microseconds mq
            = Some (TG_OK, mq', events))) /\
  (mq_test_motor_buffer mq = false ->
     fst (mq_queue_motor_buffer P mq) = None).
Proof.
  intros Hhalve. unfold mq_test_motor_buffer.
  destruct (Z.eqb_spec (head mq) (tail mq)) as [E|N].
  - split; [discriminate|]. intros _.
    apply mq_queue_motor_buffer_none. exact E.
  - split; [|discriminate]. intros _.
    destruct (mq_queue_motor_buffer_space P mq N) as (mq1 & Hq & _).
    split; [rewrite Hq; discriminate|].
    split; [|split].
    + intros us. unfold mq_queue_dwell. rewrite Hq. reflexivity.
    + intros type. unfold mq_queue_stops. rewrite Hq. reflexivity.
    + intros steps us Hd. apply mq_queue_line_accepts; assumption.
Qed.

Lemma mq_test_motor_buffer_grants_witness :
  substeps_halve_out example_params /\
  mq_test_motor_buffer after_fast_line = true /\
  exists mq' events,
    mq_queue_line example_params [1; 0; 0; 0]%float 1003500 after_fast_line
      = Some (TG_OK, mq', events).
Proof.
  assert (H : substeps_halve_out example_params)
    by (vm_compute; reflexivity).
  split; [exact H|]. split; [reflexivity|].
  destruct (mq_test_motor_buffer_grants example_params after_fast_line H)
    as [Hyes _].
  destruct (Hyes eq_refl) as (_ & _ & _ & Hline).
  apply Hline. vm_compute. reflexivity.
Defined.

Lemma queue_lines_fill P lines : forall mq,
  capacity_ok P -> substeps_halve_out P -> wf P mq ->
  tail mq = MQ_BUFFER_SIZE P - 1 ->
  head mq + Z.of_nat (length lines) = MQ_BUFFER_SIZE P - 1 ->
  List.Forall (fun l => degenerate P (fst l) (snd l) = false) lines ->
  exists mq',
    queue_lines P lines mq = Some (repeat TG_OK (length lines), mq') /\
    wf P mq' /\
    head mq' = MQ_BUFFER_SIZE P - 1 /\ tail mq' = MQ_BUFFER_SIZE P - 1.
Proof.
  induction lines as [|[steps us] rest IH]; intros mq HC Hhalve Hwf Ht Hh Hall.
  - exists mq. simpl in *.
    split; [reflexivity|]. split; [assumption|]. split; [lia|assumption].
  - apply List.Forall_cons_iff in Hall as [Hd Hrest]. simpl in Hd, Hh.
    assert (Hne : head mq <> tail mq) by lia.
    destruct (mq_queue_line_accepts P steps us mq Hhalve Hd Hne)
      as (mq1 & events & Hq).
    pose proof (wf_mq_queue_line _ _ _ _ _ _ _ HC Hwf Hq) as Hwf1.
    destruct (mq_queue_line_ok_inv P steps us mq mq1 events Hwf Hq)
      as (f & s & traps & _ & _ & _ & _ & E).
    assert (Hh1 : head mq1 = head mq + 1).
    { rewrite E. simpl. pose proof Hwf as (H1 & _).
      rewrite incr_wrap_cases by assumption.
      destruct (Z.ltb_spec (head mq + 1) (MQ_BUFFER_SIZE P)); lia. }
    assert (Ht1 : tail mq1 = tail mq) by (rewrite E; reflexivity).
    destruct (IH mq1 HC Hhalve Hwf1) as (mq' & Hqs & Hwf' & Hh' & Ht');
      [congruence|lia|exact Hrest|].
    exists mq'. cbn [queue_lines length repeat]. rewrite Hq, Hqs.
    split; [reflexivity|]. split; [assumption|]. split; assumption.
Qed.

(** X12. Lines fill the buffer to one less than its size. Right after
    [mq_init], any C-1 lines that pass the checks are all accepted with
    [TG_OK]; the buffer is then full, and every further line that passes
    the checks is refused with [TG_BUFFER_FULL_NON_FATAL], leaving all but
    [mq.p] as it is. *)
Theorem lines_fill_the_buffer P mq0 lines :
  capacity_ok P -> substeps_halve_out P ->
  Z.of_nat (length (move_buffer mq0)) = MQ_BUFFER_SIZE P ->
  Z.of_nat (length lines) = MQ_BUFFER_SIZE P - 1 ->
  List.Forall (fun l => degenerate P (fst l) (snd l) = false) lines ->
  exists mq',
    queue_lines P lines (mq_init P mq0)
      = Some (repeat TG_OK (length lines), mq') /\
    Z.of_nat (length (queued P mq')) = MQ_BUFFER_SIZE P - 1 /\
    (forall steps microseconds,
       degenerate P steps microseconds = false ->
       mq_queue_line P steps microseconds mq'
         = Some (TG_BUFFER_FULL_NON_FATAL, set_p None mq', [])).
Proof.
  intros HC Hhalve Hl Hn Hall. pose proof HC as [Hlo Hhi].
  pose proof (wf_mq_init P mq0 HC Hl) as Hwf.
  assert (Ht0 : tail (mq_init P mq0) = MQ_BUFFER_SIZE P - 1)
    by (unfold mq_init; simpl; apply Z.mod_small; lia).
  assert (Hh0 : head (mq_init P mq0) + Z.of_nat (length lines)
                = MQ_BUFFER_SIZE P - 1)
    by (change (head (mq_init P mq0)) with 0; lia).
  destruct (queue_lines_fill P lines (mq_init P mq0) HC Hhalve Hwf
              Ht0 Hh0 Hall) as (mq' & Hqs & Hwf' & Hh' & Ht').
  exists mq'. split; [exact Hqs|]. split.
  - apply (queued_full P mq' HC Hwf').
    apply mq_queue_motor_buffer_none. congruence.
  - intros steps us Hd. apply mq_queue_line_full; congruence.
Qed.

Lemma lines_fill_the_buffer_witness :
  exists mq',
    queue_lines example_params
      [([1000; 0; 0; 0]%float, 1000000%float);
       ([1; 0; 0; 0]%float, 1003500%float)]
      (mq_init example_params blank_mq) = Some ([TG_OK; TG_OK], mq') /\
    mq_queue_line example_params [-100; 50.5; 0; 0]%float 1000000 mq'
      = Some (TG_BUFFER_FULL_NON_FATAL, set_p None mq', []).
Proof.
  destruct (lines_fill_the_buffer example_params blank_mq
              [([1000; 0; 0; 0]%float, 1000000%float);
               ([1; 0; 0; 0]%float, 1003500%float)])
    as (mq' & Hqs & _ & Hfull).
  - unfold capacity_ok; simpl; lia.
  - vm_compute; reflexivity.
  - reflexivity.
  - reflexivity.
  - repeat constructor; vm_compute; reflexivity.
  - exists mq'. split; [exact Hqs|].
    apply Hfull. vm_compute; reflexivity.
Defined.

(** X13. The indices never leave the array. In every reachable buffer
    head and tail are below [MQ_BUFFER_SIZE], and every slot a reservation
    or a dequeue hands out is a slot of [move_buffer]. *)
Theorem handed_out_slots_exist P mq :
  capacity_ok P -> reachable P mq ->
  0 <= head mq < MQ_BUFFER_SIZE P /\
  0 <= tail mq < MQ_BUFFER_SIZE P /\
  (forall i, fst (mq_queue_motor_buffer P mq) = Some i ->
     (i < length (move_buffer (snd (mq_queue_motor_buffer P mq))))%nat) /\
  (forall i, fst (mq_dequeue_motor_buffer P mq) = Some i ->
     (i < length (move_buffer (snd (mq_dequeue_motor_buffer P mq))))%nat).
Proof.
  intros HC Hr. pose proof (reachable_wf P mq HC Hr) as Hwf.
  pose proof Hwf as (Hh & Ht & Hl).
  split; [exact Hh|]. split; [exact Ht|]. split.
  - intros i Hi.
    destruct (Z.eq_dec (head mq) (tail mq)) as [E|N].
    { rewrite mq_queue_motor_buffer_full in Hi by assumption. discriminate. }
    destruct (mq_queue_motor_buffer_space P mq N)
      as (mq' & Hq & _ & _ & _ & _ & Hlen).
    rewrite Hq in *. simpl in *. injection Hi as <-. lia.
  - intros i Hi.
    destruct (Z.eq_dec (incr_wrap P (tail mq)) (head mq)) as [E|N].
    { rewrite mq_dequeue_motor_buffer_empty in Hi by assumption.
      discriminate. }
    rewrite mq_dequeue_motor_buffer_some in * by assumption.
    simpl in *. injection Hi as <-.
    pose proof (incr_wrap_range P (tail mq) HC Ht). lia.
Qed.

Lemma handed_out_slots_exist_witness :
  capacity_ok example_params /\
  reachable example_params (mq_init example_params blank_mq) /\
  0 <= head (mq_init example_params blank_mq) < 3.
Proof.
  assert (HC : capacity_ok example_params)
    by (unfold capacity_ok; simpl; lia).
  assert (Hr : reachable example_params (mq_init example_params blank_mq))
    by (apply reach_init; reflexivity).
  split; [exact HC|]. split; [exact Hr|].
  exact (proj1 (handed_out_slots_exist example_params _ HC Hr)).
Defined.

(** ** More on the quantizer *)

(** X14. The sub-step multiplier never ends below 1. Entered with a
    multiplier of 1 or more, [_mq_set_f_dda] returns a multiplier that is
    not below 1, and when it raises a trap the multiplier is exactly 1 and
    the clock is the fallback clock. *)
Theorem substeps_stay_at_least_one
    P f_dda dda_substeps major_axis_steps microseconds :
  halves_below_one (pred substep_fuel) dda_substeps = true ->
  (dda_substeps <? 1)%float = false ->
  exists f s traps,
    _mq_set_f_dda P f_dda dda_substeps major_axis_steps microseconds
      = Some (f, s, traps) /\
    (s <? 1)%float = false /\
    (traps <> [] ->
       s = 1%float /\
       f = fallback_clock P (f_dda_base major_axis_steps microseconds)).
Proof.
  intros Hhalve Hs0.
  destruct (_mq_set_f_dda_spec P f_dda dda_substeps major_axis_steps
              microseconds Hhalve) as ([[f s] traps] & Hq & Hr).
  exists f, s, traps. split; [exact Hq|].
  inversion Hr as [k Hk Hfit|k Hk Hlast Hlow]; subst.
  - split; [|congruence].
    destruct k as [|k]; [exact Hs0|].
    apply (Hk k). lia.
  - split; [reflexivity|]. intros _. split; reflexivity.
Qed.

Lemma substeps_stay_at_least_one_witness :
  halves_below_one (pred substep_fuel) 1000000 = true /\
  (1000000 <? 1)%float = false /\
  exists f s traps,
    _mq_set_f_dda example_params 50000 1000000 1000 1000000
      = Some (f, s, traps) /\
    (s <? 1)%float = false.
Proof.
  assert (H : halves_below_one (pred substep_fuel) 1000000 = true)
    by (vm_compute; reflexivity).
  split; [exact H|]. split; [reflexivity|].
  destruct (substeps_stay_at_least_one example_params 50000 1000000 1000
              1000000 H eq_refl) as (f & s & traps & Hq & Hs & _).
  exists f, s, traps. split; [exact Hq|exact Hs].
Defined.

(** The descending search ends on the first multiplier, from the top, whose
    multiple is below [F_DDA], or on multiplier 1 when there is none. *)
Lemma overclock_loop_highest P base k : forall f,
  k <> 0%nat ->
  exists j, (1 <= j <= k)%nat /\
    overclock_loop P f base k = (base * Double.of_int (Z.of_nat j))%float /\
    (forall i, (j < i <= k)%nat ->
       (base * Double.of_int (Z.of_nat i) <? F_DDA P)%float = false) /\
    ((base * Double.of_int (Z.of_nat j) <? F_DDA P)%float = true \/ j = 1%nat).
Proof.
  induction k as [|k IH]; intros f Hk; [congruence|].
  cbn [overclock_loop].
  destruct (base * Double.of_int (Z.of_nat (S k)) <? F_DDA P)%float eqn:E.
  - exists (S k). split; [lia|]. split; [reflexivity|].
    split; [intros i Hi; lia|left; exact E].
  - destruct k as [|k].
    + exists 1%nat. split; [lia|]. split; [reflexivity|].
      split; [intros i Hi; lia|right; reflexivity].
    + destruct (IH (base * Double.of_int (Z.of_nat (S (S k))))%float)
        as (j & Hj & Hloop & Habove & Hpass); [congruence|].
      exists j. split; [lia|]. split; [exact Hloop|]. split; [|exact Hpass].
      intros i Hi. destruct (Nat.eq_dec i (S (S k))) as [->|Hne];
        [exact E|apply Habove; lia].
Qed.

(** X15. With overclocking on and a rate that is not too slow, the clock
    chosen is the highest integer multiple of the base rate, up to
    [DDA_OVERCLOCK] times, that is below [F_DDA]: every higher multiplier
    gives a multiple that is not below [F_DDA]. When no multiple is below
    [F_DDA], it is the base rate times 1. *)
Theorem dda_clock_is_highest_multiple P f_dda base :
  1 <= DDA_OVERCLOCK P <= 255 ->
  (base * Double.of_int (DDA_OVERCLOCK P) <? F_DDA_MIN P)%float = false ->
  exists j, 1 <= j <= DDA_OVERCLOCK P /\
    dda_clock P f_dda base = (base * Double.of_int j)%float /\
    (forall i, j < i <= DDA_OVERCLOCK P ->
       (base * Double.of_int i <? F_DDA P)%float = false) /\
    ((base * Double.of_int j <? F_DDA P)%float = true \/ j = 1).
Proof.
  intros Hoc Hslow.
  destruct (overclock_loop_highest P base (Z.to_nat (DDA_OVERCLOCK P)) f_dda)
    as (j & Hj & Hloop & Habove & Hpass); [lia|].
  exists (Z.of_nat j). split; [lia|]. split; [|split].
  - unfold dda_clock.
    destruct (Z.eqb_spec (DDA_OVERCLOCK P) 0); [lia|].
    rewrite Hslow, Z.mod_small by lia. exact Hloop.
  - intros i Hi. specialize (Habove (Z.to_nat i)).
    rewrite Z2Nat.id in Habove by lia. apply Habove. lia.
  - destruct Hpass as [Hp | ->]; [left; exact Hp|right; reflexivity].
Qed.

Lemma dda_clock_is_highest_multiple_witness :
  1 <= DDA_OVERCLOCK example_params <= 255 /\
  (f_dda_base 10000 1000000 * Double.of_int (DDA_OVERCLOCK example_params)
     <? F_DDA_MIN example_params)%float = false /\
  dda_clock example_params 50000 (f_dda_base 10000 1000000) = 40000%float /\
  exists j, 1 <= j <= 16 /\
    dda_clock example_params 50000 (f_dda_base 10000 1000000)
      = (f_dda_base 10000 1000000 * Double.of_int j)%float.
Proof.
  assert (Hoc : 1 <= DDA_OVERCLOCK example_params <= 255) by (simpl; lia).
  assert (Hslow : (f_dda_base 10000 1000000
                     * Double.of_int (DDA_OVERCLOCK example_params)
                     <? F_DDA_MIN example_params)%float = false)
    by (vm_compute; reflexivity).
  split; [exact Hoc|]. split; [exact Hslow|].
  split; [vm_compute; reflexivity|].
  destruct (dda_clock_is_highest_multiple example_params 50000
              (f_dda_base 10000 1000000) Hoc Hslow) as (j & Hj & Hc & _).
  exists j. split; [exact Hj|exact Hc].
Defined.
